(** * pulpcore: declarative content stages and repository tasks

    A shallow embedding of
      - plugin/pulpcore/plugin/stages/content_unit_stages.py
        (query_existing_content_units, content_unit_saver), and
      - pulpcore/app/tasks/repository.py
        (delete_version, _repair_ca, _verify_artifact,
         _repair_artifacts_for_content, add_and_remove),
    with the properties the specification states about them. *)

From Stdlib Require Strings.Byte.
From stdpp Require Import gmap strings list.

Open Scope string_scope.
Open Scope list_scope.
Open Scope nat_scope.

(** ** Exceptions

    Python exceptions are values of [exn]; a computation that may raise
    returns [exc A]. *)

Inductive exn : Type :=
  | AttributeError
  | KeyError
  | DoesNotExist
  | ValidationError
  | AssertionError
  | DatabaseError.

Inductive exc (A : Type) : Type :=
  | Ok (a : A)
  | Raise (e : exn).

Arguments Ok {A} a.
Arguments Raise {A} e.

Global Instance exn_eq_dec : EqDecision exn.
Proof. solve_decision. Defined.

Global Instance exc_ret : MRet exc := @Ok.
Global Instance exc_bind : MBind exc :=
  λ A B f m, match m with Ok a => f a | Raise e => Raise e end.

(** [for x in l: acc = f(acc, x)] with exceptions: stops at the first raise. *)
Fixpoint foldM {A B : Type} (f : A → B → exc A) (l : list B) (acc : A) : exc A :=
  match l with
  | [] => Ok acc
  | x :: l' => acc' ← f acc x; foldM f l' acc'
  end.

(** [for x in l: ys.append(f(x))] with exceptions. *)
Fixpoint forM {A B : Type} (f : A → exc B) (l : list A) : exc (list B) :=
  match l with
  | [] => Ok []
  | x :: l' => y ← f x; ys ← forM f l'; Ok (y :: ys)
  end.

(** [with transaction.atomic(): body]: the writes of a body that raises are
    rolled back, the exception propagates. *)
Definition atomic {S A : Type} (body : S → exc A * S) (db : S) : exc A * S :=
  match body db with
  | (Ok a, db') => (Ok a, db')
  | (Raise e, _) => (Raise e, db)
  end.

(** Equations between lists that differ in how [++] is nested. *)
Ltac app_norm :=
  repeat rewrite <- app_assoc; simpl; repeat rewrite <- app_assoc; reflexivity.

(** * The stages: content_unit_stages.py *)

Module Stages.

(** ** Data model *)

(** An Artifact: a stored file with its size and digests. *)
Record Artifact : Type := {
  size : nat;
  md5 : string;
  sha1 : string;
  sha224 : string;
  sha256 : string;
  sha384 : string;
  sha512 : string
}.

(** A Content model instance.  [model_type] is [type(content)], [adding] is
    [content._state.adding], [attrs] holds the model's fields as read by
    [getattr]. *)
Record Content : Type := {
  model_type : string;
  pk : option nat;
  adding : bool;
  attrs : gmap string string
}.

Record DeclarativeArtifact : Type := {
  artifact : Artifact;
  url : string;
  relative_path : string;
  remote : string
}.

Record DeclarativeContent : Type := {
  content : Content;
  d_artifacts : list DeclarativeArtifact
}.

Global Instance Artifact_eq_dec : EqDecision Artifact.
Proof. solve_decision. Defined.
Global Instance Content_eq_dec : EqDecision Content.
Proof. solve_decision. Defined.
Global Instance DeclarativeArtifact_eq_dec : EqDecision DeclarativeArtifact.
Proof. solve_decision. Defined.
Global Instance DeclarativeContent_eq_dec : EqDecision DeclarativeContent.
Proof. solve_decision. Defined.

(** What travels on a queue: a DeclarativeContent, or the sentinel [None]. *)
Definition entry : Type := option DeclarativeContent.

(** [declarative_content.content = result] *)
Definition set_content (dc : DeclarativeContent) (c : Content) : DeclarativeContent :=
  {| content := c; d_artifacts := d_artifacts dc |}.

(** [getattr(content, field)]; a missing attribute raises. *)
Definition getattr (c : Content) (field : string) : exc string :=
  match attrs c !! field with
  | Some v => Ok v
  | None => Raise AttributeError
  end.

(** ** Django Q objects, as far as the stage builds them *)

Inductive Q : Type :=
  | Q_pk_None                                 (* Q(pk=None) *)
  | Q_kwargs (kw : list (string * string))    (* Q of keyword arguments *)
  | Q_or (a b : Q).                           (* a | b *)

Global Instance Q_eq_dec : EqDecision Q.
Proof. solve_decision. Defined.

(** A Q without children is falsy. *)
Definition q_is_empty (q : Q) : bool :=
  match q with
  | Q_kwargs [] => true
  | _ => false
  end.

(** [a | b]: Django's [Q._combine] returns the other operand when one of the
    two is empty. *)
Definition q_or (a b : Q) : Q :=
  if q_is_empty b then a
  else if q_is_empty a then b
  else Q_or a b.

(** Whether a row satisfies a Q. *)
Fixpoint q_holds (q : Q) (row : Content) : bool :=
  match q with
  | Q_pk_None => bool_decide (pk row = None)
  | Q_kwargs kw => forallb (λ '(f, v), bool_decide (attrs row !! f = Some v)) kw
  | Q_or a b => q_holds a row || q_holds b row
  end.

(** [model_type.objects.filter(q)] over the persisted Content rows. *)
Definition objects_filter (rows : list Content) (t : string) (q : Q) : list Content :=
  List.filter (λ row, bool_decide (model_type row = t) && q_holds q row) rows.

Section QueryExisting.

(** Modelled from the spec: the registry that maps a content type to the list
    of its natural-key fields ([natural_key_fields()] of the model class, which
    lives in pulpcore's models). *)
Variable natural_key_fields : string → list string.

(** Modelled from the spec: [content.natural_key_dict()], the natural-key
    fields of the content's type with their values on [content]. *)
Definition natural_key_dict (c : Content) : exc (list (string * string)) :=
  forM (λ f, v ← getattr c f; Ok (f, v)) (natural_key_fields (model_type c)).

(** [content_q_by_type[t] = content_q_by_type[t] | k] on a
    [defaultdict(lambda: Q(pk=None))]; keys keep their insertion order. *)
Fixpoint q_by_type_update (t : string) (k : Q) (qs : list (string * Q))
  : list (string * Q) :=
  match qs with
  | [] => [(t, q_or Q_pk_None k)]
  | (t', q) :: qs' =>
      if decide (t' = t) then (t', q_or q k) :: qs'
      else (t', q) :: q_by_type_update t k qs'
  end.

(** Lines 48-56: the per-type disjunctions and the shutdown flag. *)
Fixpoint build_content_q_by_type (l : list entry) (shutdown : bool)
    (qs : list (string * Q)) : exc (bool * list (string * Q)) :=
  match l with
  | [] => Ok (shutdown, qs)
  | None :: l' => build_content_q_by_type l' true qs
  | Some declarative_content :: l' =>
      unit_key ← natural_key_dict (content declarative_content);
      build_content_q_by_type l' shutdown
        (q_by_type_update (model_type (content declarative_content))
                          (Q_kwargs unit_key) qs)
  end.

(** Lines 63-67: the field loop with its [break]. *)
Fixpoint not_same_unit (c result : Content) (fields : list string) : exc bool :=
  match fields with
  | [] => Ok false
  | field :: fields' =>
      a ← getattr c field;
      b ← getattr result field;
      if decide (a = b) then not_same_unit c result fields' else Ok true
  end.

(** Lines 60-70, for one entry of the batch. *)
Definition replace_if_same_unit (result : Content) (e : entry) : exc entry :=
  match e with
  | None => Ok None
  | Some declarative_content =>
      ns ← not_same_unit (content declarative_content) result
             (natural_key_fields (model_type result));
      if (ns : bool) then Ok (Some declarative_content)
      else Ok (Some (set_content declarative_content result))
  end.

(** Lines 59-70: the results of one query, applied in order. *)
Definition apply_results (results : list Content) (l : list entry) : exc (list entry) :=
  foldM (λ l result, forM (replace_if_same_unit result) l) results l.

(** Lines 58-70: one query per key of the dictionary, in key order.  The
    queries issued are logged next to the batch. *)
Fixpoint run_queries (rows : list Content) (qs : list (string * Q))
    (l : list entry) (log : list (string * Q)) : exc (list entry * list (string * Q)) :=
  match qs with
  | [] => Ok (l, log)
  | (t, q) :: qs' =>
      l' ← apply_results (objects_filter rows t q) l;
      run_queries rows qs' l' (log ++ [(t, q)])
  end.

(** Lines 48-70 for one drained batch: the batch after replacement, the
    queries issued, and the shutdown flag. *)
Definition resolve_batch (rows : list Content) (l : list entry) (shutdown : bool)
  : exc (list entry * list (string * Q) * bool) :=
  '(shutdown', qs) ← build_content_q_by_type l shutdown [];
  '(l', log) ← run_queries rows qs l [];
  Ok (l', log, shutdown').

End QueryExisting.

(** ** The persistent store *)

Record ContentArtifact : Type := {
  ca_pk : option nat;
  ca_content : Content;
  ca_artifact : Artifact;
  ca_relative_path : string
}.

(** The [remote_artifact_data] dictionary of lines 135-145. *)
Record remote_artifact_data : Type := {
  rad_url : string;
  rad_size : nat;
  rad_md5 : string;
  rad_sha1 : string;
  rad_sha224 : string;
  rad_sha256 : string;
  rad_sha384 : string;
  rad_sha512 : string;
  rad_remote : string
}.

(** [RemoteArtifact(content_artifact=..., **remote_artifact_data)] *)
Record RemoteArtifact : Type := {
  ra_content_artifact : ContentArtifact;
  ra_data : remote_artifact_data
}.

Global Instance ContentArtifact_eq_dec : EqDecision ContentArtifact.
Proof. solve_decision. Defined.
Global Instance remote_artifact_data_eq_dec : EqDecision remote_artifact_data.
Proof. solve_decision. Defined.
Global Instance RemoteArtifact_eq_dec : EqDecision RemoteArtifact.
Proof. solve_decision. Defined.

(** The three tables the stages touch, and the next primary key. *)
Record Store : Type := {
  contents : list Content;
  content_artifacts : list ContentArtifact;
  remote_artifacts : list RemoteArtifact;
  next_pk : nat
}.

Global Instance Store_eq_dec : EqDecision Store.
Proof. solve_decision. Defined.

Section ContentUnitSaver.

(** Whether the store refuses the next write when it is in a given state (a
    violated constraint, a lost connection): any failure of the transaction
    at any write is one choice of this function. *)
Variable write_fails : Store → bool.

(** [content.save()]: inserts the row, sets the primary key and clears
    [_state.adding] on the instance. *)
Definition save (c : Content) (db : Store) : exc Content * Store :=
  if write_fails db then (Raise DatabaseError, db)
  else
    let c' := {| model_type := model_type c; pk := Some (next_pk db);
                 adding := false; attrs := attrs c |} in
    (Ok c', {| contents := contents db ++ [c'];
               content_artifacts := content_artifacts db;
               remote_artifacts := remote_artifacts db;
               next_pk := S (next_pk db) |}).

(** Primary keys for the rows of a bulk insert, in order. *)
Fixpoint assign_pks (n : nat) (l : list ContentArtifact) : list ContentArtifact :=
  match l with
  | [] => []
  | ca :: l' =>
      {| ca_pk := Some n; ca_content := ca_content ca;
         ca_artifact := ca_artifact ca;
         ca_relative_path := ca_relative_path ca |} :: assign_pks (S n) l'
  end.

(** [ContentArtifact.objects.bulk_create(l)]: returns the rows it inserted, in
    the order given; an empty list does not reach the database. *)
Definition ContentArtifact_bulk_create (l : list ContentArtifact) (db : Store)
  : exc (list ContentArtifact) * Store :=
  match l with
  | [] => (Ok [], db)
  | _ =>
      if write_fails db then (Raise DatabaseError, db)
      else
        let rows := assign_pks (next_pk db) l in
        (Ok rows, {| contents := contents db;
                     content_artifacts := content_artifacts db ++ rows;
                     remote_artifacts := remote_artifacts db;
                     next_pk := next_pk db + length l |})
  end.

(** [RemoteArtifact.objects.bulk_create(l)] *)
Definition RemoteArtifact_bulk_create (l : list RemoteArtifact) (db : Store)
  : exc unit * Store :=
  match l with
  | [] => (Ok (), db)
  | _ =>
      if write_fails db then (Raise DatabaseError, db)
      else
        (Ok (), {| contents := contents db;
                   content_artifacts := content_artifacts db;
                   remote_artifacts := remote_artifacts db ++ l;
                   next_pk := next_pk db |})
  end.

(** Lines 129-147 for one DeclarativeArtifact of a content just saved. *)
Definition stage_artifact (c : Content) (declarative_artifact : DeclarativeArtifact)
    (acc : list ContentArtifact * gmap string remote_artifact_data)
  : list ContentArtifact * gmap string remote_artifact_data :=
  let '(content_artifact_bulk, remote_artifact_map) := acc in
  let content_artifact :=
    {| ca_pk := None; ca_content := c;
       ca_artifact := artifact declarative_artifact;
       ca_relative_path := relative_path declarative_artifact |} in
  let data :=
    {| rad_url := url declarative_artifact;
       rad_size := size (artifact declarative_artifact);
       rad_md5 := md5 (artifact declarative_artifact);
       rad_sha1 := sha1 (artifact declarative_artifact);
       rad_sha224 := sha224 (artifact declarative_artifact);
       rad_sha256 := sha256 (artifact declarative_artifact);
       rad_sha384 := sha384 (artifact declarative_artifact);
       rad_sha512 := sha512 (artifact declarative_artifact);
       rad_remote := remote declarative_artifact |} in
  let rel_path := ca_relative_path content_artifact in
  (content_artifact_bulk ++ [content_artifact],
   <[rel_path := data]> remote_artifact_map).

(** What the first loop of the transaction (lines 122-147) carries along. *)
Record staged : Type := {
  st_list : list entry;                  (* the batch, with saved contents *)
  st_shutdown : bool;
  st_content_artifact_bulk : list ContentArtifact;
  st_remote_artifact_map : gmap string remote_artifact_data
}.

(** Lines 122-147. *)
Fixpoint save_contents (l : list entry) (acc : staged) (db : Store)
  : exc staged * Store :=
  match l with
  | [] => (Ok acc, db)
  | None :: l' =>
      save_contents l'
        {| st_list := st_list acc ++ [None]; st_shutdown := true;
           st_content_artifact_bulk := st_content_artifact_bulk acc;
           st_remote_artifact_map := st_remote_artifact_map acc |} db
  | Some declarative_content :: l' =>
      if adding (content declarative_content) then
        match save (content declarative_content) db with
        | (Raise e, db') => (Raise e, db')
        | (Ok c, db') =>
            let '(bulk, map) :=
              fold_left (λ a da, stage_artifact c da a)
                (d_artifacts declarative_content)
                (st_content_artifact_bulk acc, st_remote_artifact_map acc) in
            save_contents l'
              {| st_list := st_list acc ++ [Some (set_content declarative_content c)];
                 st_shutdown := st_shutdown acc;
                 st_content_artifact_bulk := bulk;
                 st_remote_artifact_map := map |} db'
        end
      else
        save_contents l'
          {| st_list := st_list acc ++ [Some declarative_content];
             st_shutdown := st_shutdown acc;
             st_content_artifact_bulk := st_content_artifact_bulk acc;
             st_remote_artifact_map := st_remote_artifact_map acc |} db
  end.

(** Lines 149-154: every inserted ContentArtifact pops its data from the map
    by its relative path; a missing key raises. *)
Fixpoint pair_remote_artifacts (rows : list ContentArtifact)
    (remote_artifact_map : gmap string remote_artifact_data)
    (remote_artifact_bulk : list RemoteArtifact) : exc (list RemoteArtifact) :=
  match rows with
  | [] => Ok remote_artifact_bulk
  | content_artifact :: rows' =>
      match remote_artifact_map !! ca_relative_path content_artifact with
      | None => Raise KeyError
      | Some data =>
          pair_remote_artifacts rows'
            (delete (ca_relative_path content_artifact) remote_artifact_map)
            (remote_artifact_bulk ++
               [{| ra_content_artifact := content_artifact; ra_data := data |}])
      end
  end.

(** Lines 122-156: the body of the transaction. *)
Definition save_batch_body (l : list entry) (shutdown : bool) (db : Store)
  : exc (list entry * bool) * Store :=
  match save_contents l {| st_list := []; st_shutdown := shutdown;
                           st_content_artifact_bulk := [];
                           st_remote_artifact_map := ∅ |} db with
  | (Raise e, db1) => (Raise e, db1)
  | (Ok acc, db1) =>
      match ContentArtifact_bulk_create (st_content_artifact_bulk acc) db1 with
      | (Raise e, db2) => (Raise e, db2)
      | (Ok rows, db2) =>
          match pair_remote_artifacts rows (st_remote_artifact_map acc) [] with
          | Raise e => (Raise e, db2)
          | Ok remote_artifact_bulk =>
              match RemoteArtifact_bulk_create remote_artifact_bulk db2 with
              | (Raise e, db3) => (Raise e, db3)
              | (Ok _, db3) => (Ok (st_list acc, st_shutdown acc), db3)
              end
          end
      end
  end.

(** Lines 117-156 for one drained batch. *)
Definition save_batch (l : list entry) (shutdown : bool) (db : Store)
  : exc (list entry * bool) * Store :=
  atomic (save_batch_body l shutdown) db.

End ContentUnitSaver.

(** ** The stage loops *)

(** How a stage coroutine ends. *)
Inductive status : Type :=
  | Terminated              (* left the loop and put the last sentinel *)
  | Waiting                 (* suspended in [await in_q.get()] for ever *)
  | Crashed (e : exn)       (* an exception left the coroutine *)
  | OutOfFuel.

Global Instance status_eq_dec : EqDecision status.
Proof. solve_decision. Defined.

(** What a stage leaves behind: everything it put on [out_q], in order, what
    it left on [in_q], the store, the queries it issued (one list per batch)
    and how it ended. *)
Record StageRun : Type := {
  out_q : list entry;
  in_q_left : list entry;
  store : Store;
  queries : list (list (string * Q));
  ended : status
}.

(** Lines 37-46 (and 106-115): [get_nowait] until the queue is empty, with one
    blocking [get] when nothing was drained yet.  [in_q] is everything upstream
    will ever put; how much of it is there when the stage drains depends on the
    interleaving with upstream, which the schedule fixes: [n] means that [n]
    more entries follow the first one before the queue is seen empty.  With no
    schedule left, everything is there. *)
Definition drain (sched : list nat) (in_q : list entry)
  : list entry * list entry * list nat :=
  match sched with
  | [] => (in_q, [], [])
  | n :: sched' => (take (S n) in_q, drop (S n) in_q, sched')
  end.

Section Loops.

Variable natural_key_fields : string → list string.
Variable write_fails : Store → bool.

(** The [while True] loop of query_existing_content_units and line 76. *)
Fixpoint query_loop (fuel : nat) (sched : list nat) (in_q : list entry)
    (db : Store) (out : list entry) (log : list (list (string * Q)))
  : StageRun :=
  match fuel with
  | 0 => {| out_q := out; in_q_left := in_q; store := db; queries := log;
            ended := OutOfFuel |}
  | S fuel' =>
      match in_q with
      | [] => {| out_q := out; in_q_left := []; store := db; queries := log;
                 ended := Waiting |}
      | _ :: _ =>
          let '(declarative_content_list, in_q', sched') := drain sched in_q in
          match resolve_batch natural_key_fields (contents db)
                  declarative_content_list false with
          | Raise e =>
              {| out_q := out; in_q_left := in_q'; store := db; queries := log;
                 ended := Crashed e |}
          | Ok (l, issued, shutdown) =>
              (* lines 71-72: every entry of the list is put, also None *)
              let out' := out ++ l in
              if shutdown then
                (* line 76 *)
                {| out_q := out' ++ [None]; in_q_left := in_q'; store := db;
                   queries := log ++ [issued]; ended := Terminated |}
              else query_loop fuel' sched' in_q' db out' (log ++ [issued])
          end
      end
  end.

Definition query_existing_content_units (sched : list nat) (in_q : list entry)
    (db : Store) : StageRun :=
  query_loop (S (length in_q)) sched in_q db [] [].

(** Lines 158-161: the entries other than None. *)
Definition without_sentinels (l : list entry) : list entry :=
  List.filter (λ e, match e with None => false | Some _ => true end) l.

(** The [while True] loop of content_unit_saver and line 165. *)
Fixpoint saver_loop (fuel : nat) (sched : list nat) (in_q : list entry)
    (db : Store) (out : list entry) : StageRun :=
  match fuel with
  | 0 => {| out_q := out; in_q_left := in_q; store := db; queries := [];
            ended := OutOfFuel |}
  | S fuel' =>
      match in_q with
      | [] => {| out_q := out; in_q_left := []; store := db; queries := [];
                 ended := Waiting |}
      | _ :: _ =>
          let '(declarative_content_list, in_q', sched') := drain sched in_q in
          match save_batch write_fails declarative_content_list false db with
          | (Raise e, db') =>
              {| out_q := out; in_q_left := in_q'; store := db'; queries := [];
                 ended := Crashed e |}
          | (Ok (l, shutdown), db') =>
              let out' := out ++ without_sentinels l in
              if shutdown then
                {| out_q := out' ++ [None]; in_q_left := in_q'; store := db';
                   queries := []; ended := Terminated |}
              else saver_loop fuel' sched' in_q' db' out'
          end
      end
  end.

Definition content_unit_saver (sched : list nat) (in_q : list entry)
    (db : Store) : StageRun :=
  saver_loop (S (length in_q)) sched in_q db [].

(** ** Chains of stages *)

Inductive stage : Type :=
  | QueryExistingContentUnits
  | ContentUnitSaver.

Definition run_stage (s : stage) (sched : list nat) (in_q : list entry)
    (db : Store) : StageRun :=
  match s with
  | QueryExistingContentUnits => query_existing_content_units sched in_q db
  | ContentUnitSaver => content_unit_saver sched in_q db
  end.

(** A chain: the [out_q] of a stage is the [in_q] of the next.  Each stage
    comes with its own drain schedule; the runs of the stages are returned
    first stage first. *)
Fixpoint run_chain (stages : list (stage * list nat)) (in_q : list entry)
    (db : Store) : list StageRun :=
  match stages with
  | [] => []
  | (s, sched) :: stages' =>
      let r := run_stage s sched in_q db in
      r :: run_chain stages' (out_q r) (store r)
  end.

End Loops.

(** ** Concrete inputs *)

Definition mk_artifact (digest : string) : Artifact :=
  {| size := 1; md5 := ""; sha1 := ""; sha224 := ""; sha256 := digest;
     sha384 := ""; sha512 := "" |}.

Definition unsaved (t : string) (fields : list (string * string)) : Content :=
  {| model_type := t; pk := None; adding := true;
     attrs := list_to_map fields |}.

Definition saved (t : string) (n : nat) (fields : list (string * string)) : Content :=
  {| model_type := t; pk := Some n; adding := false;
     attrs := list_to_map fields |}.

Definition empty_store : Store :=
  {| contents := []; content_artifacts := []; remote_artifacts := [];
     next_pk := 1 |}.

Definition never_fails : Store → bool := λ _, false.

(** Two content types: a "file" is identified by its name, a "package" by
    its name and version; a "marker" has no natural-key field. *)
Definition example_registry (t : string) : list string :=
  if decide (t = "file") then ["name"]
  else if decide (t = "package") then ["name"; "version"]
  else [].

(** ** The vocabulary of the properties, and concrete inputs *)

(** Two queue entries stand for the same unit of work: both are the sentinel,
    or both are a DeclarativeContent with the same artifacts (the content
    reference is what the stages change). *)
Definition same_item (e e' : entry) : Prop :=
  match e, e' with
  | None, None => True
  | Some dc, Some dc' => d_artifacts dc' = d_artifacts dc
  | _, _ => False
  end.

(** The same for two DeclarativeContents. *)
Definition same_dc (dc dc' : DeclarativeContent) : Prop :=
  d_artifacts dc' = d_artifacts dc.

(** [declarative_content is None] *)
Definition is_sentinel (e : entry) : bool :=
  match e with None => true | Some _ => false end.

(** The value a dictionary of disjunctions holds for a type. *)
Fixpoint q_lookup (t : string) (qs : list (string * Q)) : option Q :=
  match qs with
  | [] => None
  | (t', q) :: qs' => if decide (t' = t) then Some q else q_lookup t qs'
  end.

(** The concrete types of the entries of a batch. *)
Fixpoint batch_types (l : list entry) : list string :=
  match l with
  | [] => []
  | None :: l' => batch_types l'
  | Some dc :: l' => model_type (content dc) :: batch_types l'
  end.

(** The natural keys of the entries of type [t], in batch order. *)
Fixpoint unit_keys_of_type (natural_key_fields : string → list string)
    (t : string) (l : list entry) : list Q :=
  match l with
  | [] => []
  | None :: l' => unit_keys_of_type natural_key_fields t l'
  | Some dc :: l' =>
      if decide (model_type (content dc) = t) then
        match natural_key_dict natural_key_fields (content dc) with
        | Ok unit_key =>
            Q_kwargs unit_key :: unit_keys_of_type natural_key_fields t l'
        | Raise _ => unit_keys_of_type natural_key_fields t l'
        end
      else unit_keys_of_type natural_key_fields t l'
  end.

(** The units of a batch that are still to be created. *)
Fixpoint new_units (l : list entry) : list DeclarativeContent :=
  match l with
  | [] => []
  | None :: l' => new_units l'
  | Some dc :: l' =>
      if adding (content dc) then dc :: new_units l' else new_units l'
  end.

(** A row [c'] is the candidate [c], persisted. *)
Definition persisted_as (c c' : Content) : Prop :=
  model_type c' = model_type c ∧ attrs c' = attrs c ∧
  adding c' = false ∧ is_Some (pk c').

(** The ContentArtifact that lines 129-133 build. *)
Definition new_content_artifact (c : Content) (da : DeclarativeArtifact)
  : ContentArtifact :=
  {| ca_pk := None; ca_content := c; ca_artifact := artifact da;
     ca_relative_path := relative_path da |}.

(** The ContentArtifacts a batch needs: one per DeclarativeArtifact of every
    new unit, linked to the row of that unit. *)
Fixpoint needed_content_artifacts (units : list DeclarativeContent)
    (rows : list Content) : list ContentArtifact :=
  match units, rows with
  | dc :: units', c :: rows' =>
      map (new_content_artifact c) (d_artifacts dc)
        ++ needed_content_artifacts units' rows'
  | _, _ => []
  end.

(** A row [ca'] is the ContentArtifact [ca], inserted. *)
Definition inserted_as (ca ca' : ContentArtifact) : Prop :=
  ca_content ca' = ca_content ca ∧ ca_artifact ca' = ca_artifact ca ∧
  ca_relative_path ca' = ca_relative_path ca ∧ is_Some (ca_pk ca').

Definition file_foo : DeclarativeContent :=
  {| content := unsaved "file" [("name", "foo")]; d_artifacts := [] |}.

Definition package_foo : DeclarativeContent :=
  {| content := unsaved "package" [("name", "foo"); ("version", "1")];
     d_artifacts := [] |}.

Definition marker : DeclarativeContent :=
  {| content := unsaved "marker" []; d_artifacts := [] |}.

Definition file_row : Content := saved "file" 1 [("name", "foo")].

Definition store_with_file : Store :=
  {| contents := [file_row]; content_artifacts := []; remote_artifacts := [];
     next_pk := 2 |}.

Definition da_one : DeclarativeArtifact :=
  {| artifact := mk_artifact "d1"; url := "http://one/a"; relative_path := "a";
     remote := "r" |}.

Definition da_two : DeclarativeArtifact :=
  {| artifact := mk_artifact "d2"; url := "http://two/a"; relative_path := "a";
     remote := "r" |}.

Definition da_three : DeclarativeArtifact :=
  {| artifact := mk_artifact "d3"; url := "http://two/b"; relative_path := "b";
     remote := "r" |}.

Definition unit_one : DeclarativeContent :=
  {| content := unsaved "file" [("name", "one")]; d_artifacts := [da_one] |}.

Definition unit_two : DeclarativeContent :=
  {| content := unsaved "file" [("name", "two")]; d_artifacts := [da_two] |}.

Definition unit_three : DeclarativeContent :=
  {| content := unsaved "file" [("name", "three")]; d_artifacts := [da_three] |}.

(** The store refuses the write that would follow the first Content row. *)
Definition fails_after_first_content : Store → bool :=
  λ db, bool_decide (length (contents db) = 1).

(** The number of sentinels among the entries. *)
Definition sentinels (l : list entry) : nat :=
  length (List.filter is_sentinel l).

(** The relative paths of the artifacts of the new units of a batch. *)
Definition new_relative_paths (l : list entry) : list string :=
  map relative_path (concat (map d_artifacts (new_units l))).

(** The store of [unit_one] and [unit_three] saved into the empty store. *)
Definition store_after_one_and_three : Store :=
  snd (save_batch never_fails [Some unit_one; Some unit_three] false empty_store).

(** C5, as the specification states its second half: a type whose entries
    all have an empty natural key gets no query. *)
Definition skips_types_with_empty_keys (natural_key_fields : string → list string)
    (rows : list Content) (l : list entry) : Prop :=
  ∀ t l' log shutdown,
    resolve_batch natural_key_fields rows l false = Ok (l', log, shutdown) →
    t ∈ batch_types l →
    (∀ dc, Some dc ∈ l → model_type (content dc) = t →
           natural_key_dict natural_key_fields (content dc) = Ok []) →
    t ∉ map fst log.

(** ** More vocabulary *)

(** The DeclarativeArtifacts of the new units of a batch, in batch order. *)
Definition new_artifacts (l : list entry) : list DeclarativeArtifact :=
  concat (map d_artifacts (new_units l)).

(** The dictionary that lines 135-145 build for a DeclarativeArtifact. *)
Definition staged_data (da : DeclarativeArtifact) : remote_artifact_data :=
  {| rad_url := url da;
     rad_size := size (artifact da);
     rad_md5 := md5 (artifact da);
     rad_sha1 := sha1 (artifact da);
     rad_sha224 := sha224 (artifact da);
     rad_sha256 := sha256 (artifact da);
     rad_sha384 := sha384 (artifact da);
     rad_sha512 := sha512 (artifact da);
     rad_remote := remote da |}.

(** No entry of the list has a content that is still to be saved. *)
Definition all_saved (l : list entry) : Prop :=
  Forall (λ e, match e with
               | Some dc => adding (content dc) = false
               | None => True
               end) l.

(** An entry after the query stage: the same unit of work, whose content is
    the one it came with or a row of the store. *)
Definition kept_or_row (rows : list Content) (e e' : entry) : Prop :=
  match e, e' with
  | None, None => True
  | Some dc, Some dc' =>
      d_artifacts dc' = d_artifacts dc ∧
      (content dc' = content dc ∨ content dc' ∈ rows)
  | _, _ => False
  end.

(** [c'] carries every one of the fields, with the value it has on [c]. *)
Definition agrees_on (fields : list string) (c c' : Content) : Prop :=
  Forall (λ f, is_Some (attrs c !! f) ∧ attrs c' !! f = attrs c !! f) fields.

(** A RemoteArtifact row is the provenance of a DeclarativeArtifact: it holds
    the data staged for it and hangs on a ContentArtifact with its artifact
    and relative path. *)
Definition provenance_of (da : DeclarativeArtifact) (ra : RemoteArtifact) : Prop :=
  ra_data ra = staged_data da ∧
  ca_relative_path (ra_content_artifact ra) = relative_path da ∧
  ca_artifact (ra_content_artifact ra) = artifact da.

(** A store that refuses every write. *)
Definition always_fails : Store → bool := λ _, true.

(** The batch [unit_one], [unit_three] as the saver forwards it. *)
Definition batch_after_one_and_three : list entry :=
  match fst (save_batch never_fails [Some unit_one; Some unit_three] false
               empty_store) with
  | Ok (l, _) => l
  | Raise _ => []
  end.

(** Every entry of the batch that is not the sentinel has type [t]. *)
Definition batch_of_type (t : string) (l : list entry) : Prop :=
  Forall (λ e, match e with
               | Some dc => model_type (content dc) = t
               | None => True
               end) l.

End Stages.

(** * The tasks: pulpcore/app/tasks/repository.py *)

Module Tasks.

(** ** Models, as far as the tasks read them *)

Record Content : Type := {
  content_pk : string;
  pulp_domain : string
}.

(** An Artifact with the name of its file in storage ([artifact.file.name]). *)
Record Artifact : Type := {
  artifact_pk : string;
  file_name : string;
  sha256 : string;
  pulp_domain_id : string
}.

(** A ContentArtifact row with its artifact loaded ([select_related]). *)
Record ContentArtifact : Type := {
  ca_pk : string;
  ca_content : string;
  ca_artifact : option Artifact
}.

Record RemoteArtifact : Type := {
  ra_pk : string;
  ra_content_artifact : string;
  ra_url : string;
  ra_remote : string
}.

Record Repository : Type := {
  repository_pk : string;
  name : string;
  next_version : nat
}.

Record RepositoryVersion : Type := {
  version_pk : string;
  repository : string;
  number : nat;
  complete : bool;
  content : gset string
}.

Global Instance Content_eq_dec : EqDecision Content.
Proof. solve_decision. Defined.
Global Instance Artifact_eq_dec : EqDecision Artifact.
Proof. solve_decision. Defined.
Global Instance ContentArtifact_eq_dec : EqDecision ContentArtifact.
Proof. solve_decision. Defined.
Global Instance RemoteArtifact_eq_dec : EqDecision RemoteArtifact.
Proof. solve_decision. Defined.
Global Instance Repository_eq_dec : EqDecision Repository.
Proof. solve_decision. Defined.
Global Instance RepositoryVersion_eq_dec : EqDecision RepositoryVersion.
Proof. solve_decision. Defined.

(** The database: one list of rows per table, in stored order. *)
Record Db : Type := {
  content_table : list Content;
  content_artifact_table : list ContentArtifact;
  remote_artifact_table : list RemoteArtifact;
  repository_table : list Repository;
  version_table : list RepositoryVersion
}.

(** What the tasks write to the log and do to the outside, in order. *)
Inductive event : Type :=
  | Info_version_not_found                      (* line 43 *)
  | Info_deleting_version (num : nat) (repo : string)   (* lines 54-58 *)
  | Warning_no_remote_source (a : string)       (* lines 67-69 *)
  | Warning_deleting_file (a : string)          (* lines 70-72 and 94 *)
  | Warning_redownload_failed (url : string)    (* line 82 *)
  | Warning_missing_file (a : string)           (* line 141 *)
  | Warning_digest_mismatch (a : string)        (* line 154 *)
  | Info_repairing_version (num : nat) (repo : string)  (* lines 180-184 *)
  | Info_repairing_artifacts                    (* line 202 *)
  | Downloader_run (url : string)               (* line 80 *)
  | File_delete (file : string)                 (* artifact.file.delete *)
  | File_save (file : string) (data : list Byte.byte).   (* artifact.file.save *)

Global Instance byte_eq_dec : EqDecision Byte.byte := Byte.byte_eq_dec.

Global Instance event_eq_dec : EqDecision event.
Proof. solve_decision. Defined.

(** The three progress reports of a repair. *)
Record Progress : Type := {
  missing : nat;
  corrupted : nat;
  repaired : nat
}.

(** Everything a task can read or change. *)
Record World : Type := {
  db : Db;
  storage : gmap string (list Byte.byte);
  progress : Progress;
  log : list event;
  domain : string                      (* get_domain().pk *)
}.

Definition set_db (d : Db) (w : World) : World :=
  {| db := d; storage := storage w; progress := progress w; log := log w;
     domain := domain w |}.

Definition set_storage (s : gmap string (list Byte.byte)) (w : World) : World :=
  {| db := db w; storage := s; progress := progress w; log := log w;
     domain := domain w |}.

Definition set_progress (p : Progress) (w : World) : World :=
  {| db := db w; storage := storage w; progress := p; log := log w;
     domain := domain w |}.

Definition emit (e : event) (w : World) : World :=
  {| db := db w; storage := storage w; progress := progress w;
     log := log w ++ [e]; domain := domain w |}.

(** [with transaction.atomic(): body] in a world: only the database is rolled
    back when the body raises. *)
Definition atomic_db {A : Type} (body : World → exc A * World) (w : World)
  : exc A * World :=
  match body w with
  | (Ok a, w') => (Ok a, w')
  | (Raise e, w') => (Raise e, set_db (db w) w')
  end.

(** ** delete_version *)

(** [models.RepositoryVersion.objects.get(pk=pk)] *)
Definition get_version (pk : string) (d : Db) : exc RepositoryVersion :=
  match List.find (λ v, bool_decide (version_pk v = pk)) (version_table d) with
  | Some v => Ok v
  | None => Raise DoesNotExist
  end.

(** [repository.versions.complete().count()] *)
Definition complete_count (repo : string) (d : Db) : nat :=
  length (List.filter (λ v, bool_decide (repository v = repo) && complete v)
            (version_table d)).

(** [models.Repository.objects.get(pk=pk)] *)
Definition get_repository (pk : string) (d : Db) : exc Repository :=
  match List.find (λ r, bool_decide (repository_pk r = pk)) (repository_table d) with
  | Some r => Ok r
  | None => Raise DoesNotExist
  end.

(** Modelled from the spec: [version.delete()] of pulpcore's models.  The
    version leaves the history of its repository; the content sets of the
    other versions stay as they are. *)
Definition RepositoryVersion_delete (version : RepositoryVersion) (d : Db) : Db :=
  {| content_table := content_table d;
     content_artifact_table := content_artifact_table d;
     remote_artifact_table := remote_artifact_table d;
     repository_table := repository_table d;
     version_table :=
       List.filter (λ v, negb (bool_decide (version_pk v = version_pk version)))
         (version_table d) |}.

(** The name of the version's repository, for the log line. *)
Definition repository_name (version : RepositoryVersion) (d : Db) : string :=
  match get_repository (repository version) d with
  | Ok r => name r
  | Raise _ => ""
  end.

Section DeleteVersion.

(** [version.delete()] of pulpcore's models, which is not part of these
    sources, as the task sees it: it returns or raises, and either way it
    leaves the database in some state. *)
Variable version_delete : RepositoryVersion → Db → exc unit * Db.

(** Lines 40-60: the body of the transaction. *)
Definition delete_version_body_with (pk : string) (w : World) : exc unit * World :=
  match get_version pk (db w) with
  | Raise _ => (Ok (), emit Info_version_not_found w)
  | Ok version =>
      if bool_decide (complete_count (repository version) (db w) ≤ 1)
      then (Raise ValidationError, w)
      else
        let w1 := emit (Info_deleting_version (number version)
                          (repository_name version (db w))) w in
        match version_delete version (db w1) with
        | (Ok _, d) => (Ok (), set_db d w1)
        | (Raise e, d) => (Raise e, set_db d w1)
        end
  end.

(** [delete_version(pk)], for any [version.delete()]. *)
Definition delete_version_with (pk : string) (w : World) : exc unit * World :=
  atomic_db (delete_version_body_with pk) w.

End DeleteVersion.

(** [version.delete()] as modelled from the spec: it removes the row and
    returns. *)
Definition version_delete_removes_row (version : RepositoryVersion) (d : Db)
  : exc unit * Db :=
  (Ok (), RepositoryVersion_delete version d).

(** Lines 40-60 with that [version.delete()]. *)
Definition delete_version_body (pk : string) (w : World) : exc unit * World :=
  delete_version_body_with version_delete_removes_row pk w.

(** [delete_version(pk)] with that [version.delete()]. *)
Definition delete_version (pk : string) (w : World) : exc unit * World :=
  delete_version_with version_delete_removes_row pk w.

(** ** The repair engine *)

(** [content_artifact.remoteartifact_set.all()]: the RemoteArtifact rows of a
    ContentArtifact, in stored order. *)
Definition remoteartifact_set (content_artifact : ContentArtifact) (d : Db)
  : list RemoteArtifact :=
  List.filter (λ ra, bool_decide (ra_content_artifact ra = ca_pk content_artifact))
    (remote_artifact_table d).

(** [artifact.file.delete(save=False)]: deleting a file that is not there is
    not an error.  The call also clears [file.name] on the artifact instance
    (line 86 reads the name before it); the instances are not part of the
    world, which holds storage, so nothing here tells what a later read of
    [artifact.file] on that same instance does. *)
Definition file_delete (a : Artifact) (w : World) : World :=
  emit (File_delete (file_name a))
    (set_storage (delete (file_name a) (storage w)) w).

(** [artifact.file.save(filename, src, save=False)] *)
Definition file_save (filename : string) (src : list Byte.byte) (w : World) : World :=
  emit (File_save filename src) (set_storage (<[filename := src]> (storage w)) w).

(** [storage.exists(name)] *)
Definition storage_exists (file : string) (w : World) : bool :=
  bool_decide (is_Some (storage w !! file)).

Definition missing_aincrement (w : World) : World :=
  set_progress {| missing := S (missing (progress w));
                  corrupted := corrupted (progress w);
                  repaired := repaired (progress w) |} w.

Definition corrupted_aincrement (w : World) : World :=
  set_progress {| missing := missing (progress w);
                  corrupted := S (corrupted (progress w));
                  repaired := repaired (progress w) |} w.

Definition repaired_aincrement (w : World) : World :=
  set_progress {| missing := missing (progress w);
                  corrupted := corrupted (progress w);
                  repaired := S (repaired (progress w)) |} w.

Section Repair.

(** [hashlib.sha256] over the bytes of a file, as a hex digest. *)
Variable sha256_hexdigest : list Byte.byte → string.

(** [downloader.run()] for a RemoteArtifact: [None] when it raises, else the
    bytes at [dl_result.path] and [dl_result.artifact_attributes["sha256"]]. *)
Variable downloader_run : RemoteArtifact → option (list Byte.byte * string).

(** Lines 76-96: the loop over the remote artifacts and what follows it. *)
Fixpoint repair_from (a : Artifact) (with_report : bool)
    (remote_artifacts : list RemoteArtifact) (w : World) : bool * World :=
  match remote_artifacts with
  | [] =>
      (false, file_delete a (emit (Warning_deleting_file (artifact_pk a)) w))
  | remote_artifact :: rest =>
      let w1 := emit (Downloader_run (ra_url remote_artifact)) w in
      match downloader_run remote_artifact with
      | None =>
          repair_from a with_report rest
            (emit (Warning_redownload_failed (ra_url remote_artifact)) w1)
      | Some (src, digest) =>
          if decide (digest = sha256 a) then
            let filename := file_name a in
            let w2 := file_delete a w1 in
            let w3 := file_save filename src w2 in
            (true, if with_report then repaired_aincrement w3 else w3)
          else repair_from a with_report rest w1
      end
  end.

(** Lines 76-96 for a ContentArtifact whose artifact is None: the downloads
    run until one succeeds, and reading [content_artifact.artifact.sha256]
    then, or [content_artifact.artifact.file] after the loop, raises; the
    warnings are formatted with None. *)
Fixpoint repair_from_None (remote_artifacts : list RemoteArtifact) (w : World)
  : exc bool * World :=
  match remote_artifacts with
  | [] => (Raise AttributeError, emit (Warning_deleting_file "None") w)
  | remote_artifact :: rest =>
      let w1 := emit (Downloader_run (ra_url remote_artifact)) w in
      match downloader_run remote_artifact with
      | None =>
          repair_from_None rest
            (emit (Warning_redownload_failed (ra_url remote_artifact)) w1)
      | Some _ => (Raise AttributeError, w1)
      end
  end.

(** [_repair_ca(content_artifact, repaired)]; [with_report] tells whether a
    progress report was passed as [repaired]. *)
Definition _repair_ca (content_artifact : ContentArtifact) (with_report : bool)
    (w : World) : exc bool * World :=
  match ca_artifact content_artifact with
  | None =>
      match remoteartifact_set content_artifact (db w) with
      | [] =>
          (Raise AttributeError,
           emit (Warning_deleting_file "None")
             (emit (Warning_no_remote_source "None") w))
      | remote_artifacts => repair_from_None remote_artifacts w
      end
  | Some a =>
      match remoteartifact_set content_artifact (db w) with
      | [] =>
          (Ok false,
           file_delete a
             (emit (Warning_deleting_file (artifact_pk a))
                (emit (Warning_no_remote_source (artifact_pk a)) w)))
      | remote_artifacts =>
          let '(r, w') := repair_from a with_report remote_artifacts w in
          (Ok r, w')
      end
  end.

(** [_verify_artifact(artifact)]; the chunks of the file are fed to one
    hasher, which is the digest of the whole file. *)
Definition _verify_artifact (a : Artifact) (w : World) : exc bool :=
  if decide (domain w = pulp_domain_id a) then
    match storage w !! file_name a with
    | Some data => Ok (bool_decide (sha256_hexdigest data = sha256 a))
    | None => Ok false
    end
  else Raise AssertionError.

(** Lines 117-124: the ContentArtifacts a repair scans.  A queryset of
    Content is the list of its rows; [None] is the absent argument. *)
Definition scan_query_set (subset : option (list Content)) (w : World)
  : list ContentArtifact :=
  let query_set :=
    List.filter (λ ca, bool_decide (ca_artifact ca ≠ None))
      (content_artifact_table (db w)) in
  let subset' :=
    match subset with
    | None | Some [] =>
        List.filter (λ c, bool_decide (pulp_domain c = domain w))
          (content_table (db w))
    | Some rows => rows
    end in
  List.filter (λ ca, bool_decide (ca_content ca ∈ map content_pk subset')) query_set.

(** Lines 136-162 for one ContentArtifact.  The repair task that line 162
    starts is run to its end on the spot: the five tasks in flight change when
    a repair runs, not what it does to its own artifact. *)
Definition scan_one (verify_checksums : bool) (content_artifact : ContentArtifact)
    (w : World) : exc unit * World :=
  match ca_artifact content_artifact with
  | None => (Raise AttributeError, w)
  | Some a =>
      let repair (w : World) : exc unit * World :=
        match _repair_ca content_artifact true w with
        | (Ok _, w') => (Ok (), w')
        | (Raise e, w') => (Raise e, w')
        end in
      if negb (storage_exists (file_name a) w) then
        repair (emit (Warning_missing_file (artifact_pk a)) (missing_aincrement w))
      else if verify_checksums then
        match _verify_artifact a w with
        | Raise e => (Raise e, w)
        | Ok true => (Ok (), w)
        | Ok false =>
            repair (emit (Warning_digest_mismatch (artifact_pk a))
                      (corrupted_aincrement w))
        end
      else (Ok (), w)
  end.

Fixpoint scan (verify_checksums : bool) (l : list ContentArtifact) (w : World)
  : exc unit * World :=
  match l with
  | [] => (Ok (), w)
  | content_artifact :: l' =>
      match scan_one verify_checksums content_artifact w with
      | (Ok _, w') => scan verify_checksums l' w'
      | (Raise e, w') => (Raise e, w')
      end
  end.

Definition _repair_artifacts_for_content (subset : option (list Content))
    (verify_checksums : bool) (w : World) : exc unit * World :=
  scan verify_checksums (scan_query_set subset w) w.

(** [version.content]: the Content rows of a repository version. *)
Definition version_content (version : RepositoryVersion) (d : Db) : list Content :=
  List.filter (λ c, bool_decide (content_pk c ∈ content version)) (content_table d).

Definition repair_version (repository_version_pk : string) (verify_checksums : bool)
    (w : World) : exc unit * World :=
  match get_version repository_version_pk (db w) with
  | Raise e => (Raise e, w)
  | Ok version =>
      _repair_artifacts_for_content (Some (version_content version (db w)))
        verify_checksums
        (emit (Info_repairing_version (number version)
                 (repository_name version (db w))) w)
  end.

Definition repair_all_artifacts (verify_checksums : bool) (w : World)
  : exc unit * World :=
  _repair_artifacts_for_content None verify_checksums
    (emit Info_repairing_artifacts w).

End Repair.

(** ** add_and_remove *)

(** [models.Content.objects.filter(pk__in=pks)], as the set of its keys. *)
Definition content_filter_pk_in (pks : list string) (d : Db) : gset string :=
  list_to_set
    (List.filter (λ k, bool_decide (k ∈ pks)) (map content_pk (content_table d))).

(** Modelled from the spec: [repository.latest_version()] of pulpcore's
    models, the complete version of the repository with the highest number. *)
Definition latest_version (repo : Repository) (d : Db) : option RepositoryVersion :=
  fold_left
    (λ best v,
       if bool_decide (repository v = repository_pk repo) && complete v then
         match best with
         | Some b => if bool_decide (number b < number v) then Some v else best
         | None => Some v
         end
       else best)
    (version_table d) None.

(** Modelled from the spec: [new_version.remove_content(content)] and
    [new_version.add_content(content)] of pulpcore's models, on the content
    set of the version being built. *)
Definition remove_content (removed : gset string) (v : RepositoryVersion)
  : RepositoryVersion :=
  {| version_pk := version_pk v; repository := repository v;
     number := number v; complete := complete v;
     content := content v ∖ removed |}.

Definition add_content (added : gset string) (v : RepositoryVersion)
  : RepositoryVersion :=
  {| version_pk := version_pk v; repository := repository v;
     number := number v; complete := complete v;
     content := content v ∪ added |}.

(** Modelled from the spec: the content a new version starts from, that of
    [base_version], or that of the latest version when there is no base. *)
Definition initial_content (repo : Repository) (base_version : option RepositoryVersion)
    (d : Db) : gset string :=
  match base_version with
  | Some b => content b
  | None =>
      match latest_version repo d with
      | Some l => content l
      | None => ∅
      end
  end.

(** Modelled from the spec: [with repository.new_version(base_version) as
    new_version: body] of pulpcore's models.  One new version is created with
    the next number of the repository and the content of [base_version], or of
    the latest version when there is no base; the body changes its content;
    leaving the block completes it.  [new_pk] is the key the new row gets. *)
Definition with_new_version (repo : Repository) (base_version : option RepositoryVersion)
    (new_pk : string) (body : RepositoryVersion → RepositoryVersion) (d : Db)
  : RepositoryVersion * Db :=
  let v0 :=
    {| version_pk := new_pk; repository := repository_pk repo;
       number := next_version repo; complete := false;
       content := initial_content repo base_version d |} in
  let v1 := body v0 in
  let v2 :=
    {| version_pk := version_pk v1; repository := repository v1;
       number := number v1; complete := true; content := content v1 |} in
  (v2,
   {| content_table := content_table d;
      content_artifact_table := content_artifact_table d;
      remote_artifact_table := remote_artifact_table d;
      repository_table :=
        map (λ r, if bool_decide (repository_pk r = repository_pk repo)
                  then {| repository_pk := repository_pk r; name := name r;
                          next_version := S (next_version r) |}
                  else r) (repository_table d);
      version_table := version_table d ++ [v2] |}).

(** Lines 229-234: what [remove_content_units] is bound to afterwards. *)
Definition resolve_remove_content_units (repo : Repository)
    (remove_content_units : list string) (d : Db) : list string :=
  if bool_decide ("*" ∈ remove_content_units) then
    match latest_version repo d with
    | Some latest => elements (content latest)
    | None => []
    end
  else remove_content_units.

(** [add_and_remove(repository_pk, add_content_units, remove_content_units,
    base_version_pk)]; returns the version it created next to the database. *)
Definition add_and_remove (repository_pk : string)
    (add_content_units remove_content_units : list string)
    (base_version_pk : option string) (new_pk : string) (d : Db)
  : exc (RepositoryVersion * Db) :=
  repo ← get_repository repository_pk d;
  base_version ←
    match base_version_pk with
    | Some pk =>
        if decide (pk = "") then Ok None       (* a falsy key *)
        else v ← get_version pk d; Ok (Some v)
    | None => Ok None
    end;
  let remove_content_units :=
    resolve_remove_content_units repo remove_content_units d in
  Ok (with_new_version repo base_version new_pk
        (λ new_version,
           add_content (content_filter_pk_in add_content_units d)
             (remove_content (content_filter_pk_in remove_content_units d)
                new_version))
        d).

(** ** The vocabulary of the properties, and concrete inputs *)

(** One repository, whose next version is number 3. *)
Definition repo_one : Repository :=
  {| repository_pk := "repo"; name := "one"; next_version := 3 |}.

Definition version_of (pk : string) (n : nat) (done : bool) (units : list string)
  : RepositoryVersion :=
  {| version_pk := pk; repository := "repo"; number := n; complete := done;
     content := list_to_set units |}.

Definition db_of (versions : list RepositoryVersion) : Db :=
  {| content_table :=
       [ {| content_pk := "x"; pulp_domain := "default" |};
         {| content_pk := "y"; pulp_domain := "default" |};
         {| content_pk := "z"; pulp_domain := "other" |} ];
     content_artifact_table := [];
     remote_artifact_table := [];
     repository_table := [repo_one];
     version_table := versions |}.

Definition world_of (d : Db) : World :=
  {| db := d; storage := ∅;
     progress := {| missing := 0; corrupted := 0; repaired := 0 |};
     log := []; domain := "default" |}.

(** A [version.delete()] that removes the row and then raises. *)
Definition version_delete_fails_late (version : RepositoryVersion) (d : Db)
  : exc unit * Db :=
  (Raise DatabaseError, RepositoryVersion_delete version d).

(** A repository with the complete versions 0, 1 and 2. *)
Definition three_versions : list RepositoryVersion :=
  [version_of "v0" 0 true []; version_of "v1" 1 true ["x"];
   version_of "v2" 2 true ["x"; "y"]].

(** A repository with one complete version and one still being built. *)
Definition one_complete_version : list RepositoryVersion :=
  [version_of "v0" 0 true []; version_of "v1" 1 false ["x"]].

(** The world with more events at the end of its log. *)
Definition emit_all (es : list event) (w : World) : World :=
  {| db := db w; storage := storage w; progress := progress w;
     log := log w ++ es; domain := domain w |}.

(** The bytes a source delivers when its download succeeds with the digest
    recorded for the artifact; [None] when the download fails or the digest
    differs. *)
Definition verified (downloader_run : RemoteArtifact → option (list Byte.byte * string))
    (a : Artifact) (ra : RemoteArtifact) : option (list Byte.byte) :=
  match downloader_run ra with
  | Some (src, digest) => if decide (digest = sha256 a) then Some src else None
  | None => None
  end.

(** What trying a source leaves in the log, the download itself apart: *)
Definition attempt_events
    (downloader_run : RemoteArtifact → option (list Byte.byte * string))
    (ra : RemoteArtifact) : list event :=
  Downloader_run (ra_url ra) ::
  match downloader_run ra with
  | None => [Warning_redownload_failed (ra_url ra)]
  | Some _ => []
  end.

(** The bytes the artifacts of the scenario should have, and altered ones. *)
Definition good_bytes : list Byte.byte := [Byte.x67; Byte.x6f; Byte.x6f; Byte.x64].
Definition bad_bytes : list Byte.byte := [Byte.x62; Byte.x61; Byte.x64].

Definition toy_sha256 (data : list Byte.byte) : string :=
  if decide (data = good_bytes) then "good" else "bad".

(** mirror1 serves altered bytes, mirror2 the right ones, anything else is
    out of reach. *)
Definition toy_downloader (ra : RemoteArtifact) : option (list Byte.byte * string) :=
  if decide (ra_remote ra = "mirror1") then Some (bad_bytes, toy_sha256 bad_bytes)
  else if decide (ra_remote ra = "mirror2") then Some (good_bytes, toy_sha256 good_bytes)
  else None.

Definition artifact_f : Artifact :=
  {| artifact_pk := "a1"; file_name := "artifact/f"; sha256 := "good";
     pulp_domain_id := "default" |}.

Definition artifact_g : Artifact :=
  {| artifact_pk := "a2"; file_name := "artifact/g"; sha256 := "good";
     pulp_domain_id := "default" |}.

Definition ca_f : ContentArtifact :=
  {| ca_pk := "ca1"; ca_content := "x"; ca_artifact := Some artifact_f |}.

Definition ca_g : ContentArtifact :=
  {| ca_pk := "ca2"; ca_content := "y"; ca_artifact := Some artifact_g |}.

Definition ca_on_demand : ContentArtifact :=
  {| ca_pk := "ca3"; ca_content := "y"; ca_artifact := None |}.

Definition ca_elsewhere : ContentArtifact :=
  {| ca_pk := "ca4"; ca_content := "z"; ca_artifact := Some artifact_g |}.

Definition ra_of (pk remote : string) : RemoteArtifact :=
  {| ra_pk := pk; ra_content_artifact := "ca1";
     ra_url := "http://" +:+ remote +:+ "/f"; ra_remote := remote |}.

Definition repair_db (versions : list RepositoryVersion) : Db :=
  {| content_table := content_table (db_of versions);
     content_artifact_table := [ca_f; ca_g; ca_on_demand; ca_elsewhere];
     remote_artifact_table :=
       [ra_of "ra0" "down"; ra_of "ra1" "mirror1"; ra_of "ra2" "mirror2";
        ra_of "ra3" "mirror2"];
     repository_table := [repo_one];
     version_table := versions |}.

(** The file of [artifact_f] is corrupted, the one of [artifact_g] missing. *)
Definition repair_world (versions : list RepositoryVersion) : World :=
  {| db := repair_db versions;
     storage := {[ "artifact/f" := bad_bytes ]};
     progress := {| missing := 0; corrupted := 0; repaired := 0 |};
     log := []; domain := "default" |}.

(** ** More vocabulary *)

(** The digest a download reports is the digest of the bytes it delivers. *)
Definition honest (sha256_hexdigest : list Byte.byte → string)
    (downloader_run : RemoteArtifact → option (list Byte.byte * string)) : Prop :=
  ∀ ra src digest,
    downloader_run ra = Some (src, digest) → digest = sha256_hexdigest src.

(** The file of an artifact is not there, or has the recorded digest. *)
Definition sound (sha256_hexdigest : list Byte.byte → string) (a : Artifact)
    (w : World) : Prop :=
  match storage w !! file_name a with
  | Some data => sha256_hexdigest data = sha256 a
  | None => True
  end.

(** Two worlds differ at most in the file of [a], the count of repaired
    units and the log. *)
Definition same_but_file (a : Artifact) (w w' : World) : Prop :=
  db w' = db w ∧ domain w' = domain w ∧
  missing (progress w') = missing (progress w) ∧
  corrupted (progress w') = corrupted (progress w) ∧
  ∀ f, f ≠ file_name a → storage w' !! f = storage w !! f.

(** ContentArtifacts whose artifacts share a file share the digest, as they
    do when files are stored under their digest. *)
Definition content_addressed (l : list ContentArtifact) : Prop :=
  ∀ ca1 ca2 a1 a2,
    ca1 ∈ l → ca2 ∈ l → ca_artifact ca1 = Some a1 → ca_artifact ca2 = Some a2 →
    file_name a1 = file_name a2 → sha256 a1 = sha256 a2.

(** Unfolds what the tasks do to a world. *)
Ltac world_simpl :=
  unfold repaired_aincrement, missing_aincrement, corrupted_aincrement,
    file_save, file_delete, emit, set_storage, set_progress, set_db in *;
  cbn [db storage progress log domain missing corrupted repaired] in *.

(** A world in which the file of [artifact_f] is the right one. *)
Definition healthy_world : World :=
  {| db := repair_db three_versions;
     storage := {[ "artifact/f" := good_bytes; "artifact/g" := good_bytes ]};
     progress := {| missing := 0; corrupted := 0; repaired := 0 |};
     log := []; domain := "default" |}.

End Tasks.

(** * The serializer in front of add_and_remove:
      pulpcore/app/serializers/repository.py *)

Module Serializers.

(** [d[k] = v] on a dictionary that keeps its keys in insertion order. *)
Fixpoint dict_set (k v : string) (d : list (string * string))
  : list (string * string) :=
  match d with
  | [] => [(k, v)]
  | (k', v') :: d' =>
      if decide (k' = k) then (k', v) :: d' else (k', v') :: dict_set k v d'
  end.

(** [d.keys()] *)
Definition dict_keys (d : list (string * string)) : list string := map fst d.

Section RepositoryAddRemoveContentSerializer.

(** [pulpcore.app.util.extract_pk], which is not part of these sources: the
    key in a url, or an exception. *)
Variable extract_pk : string → exc string.

(** [pulpcore.app.util.raise_for_unknown_content_units], which is not part of
    these sources, on the keys of the Content found and the dictionary from
    keys to urls. *)
Variable raise_for_unknown_content_units :
  list string → list (string * string) → exc unit.

(** The loops [for url in value: units[extract_pk(url)] = url]. *)
Fixpoint collect_pks (value : list string) (units : list (string * string))
  : exc (list (string * string)) :=
  match value with
  | [] => Ok units
  | url :: value' =>
      pk ← extract_pk url;
      collect_pks value' (dict_set pk url units)
  end.

(** [models.Content.objects.filter(pk__in=content_units_pks)], as the keys of
    the rows found. *)
Definition existing_content_units (content_units_pks : list string) (d : Tasks.Db)
  : list string :=
  List.filter (λ k, bool_decide (k ∈ content_units_pks))
    (map Tasks.content_pk (Tasks.content_table d)).

(** [validate_add_content_units(value)]: the result, and the keys of the
    Content rows that [touch()] has marked before the check for unknown
    units. *)
Definition validate_add_content_units (value : list string) (d : Tasks.Db)
  : exc (list string) * list string :=
  match collect_pks value [] with
  | Raise e => (Raise e, [])
  | Ok add_content_units =>
      let content_units_pks := dict_keys add_content_units in
      let existing := existing_content_units content_units_pks d in
      (_ ← raise_for_unknown_content_units existing add_content_units;
       Ok (dict_keys add_content_units),
       existing)
  end.

(** [validate_remove_content_units(value)] *)
Definition validate_remove_content_units (value : list string) (d : Tasks.Db)
  : exc (list string) :=
  if bool_decide ("*" ∈ value) then
    if bool_decide (1 < length value) then Raise ValidationError
    else Ok ["*"]
  else
    remove_content_units ← collect_pks value [];
    let content_units_pks := dict_keys remove_content_units in
    let existing := existing_content_units content_units_pks d in
    _ ← raise_for_unknown_content_units existing remove_content_units;
    Ok (dict_keys remove_content_units).

End RepositoryAddRemoveContentSerializer.

(** ** Concrete helpers *)

(** A url is its key behind "/c/". *)
Definition toy_extract_pk (url : string) : exc string :=
  if String.prefix "/c/" url
  then Ok (String.substring 3 (String.length url - 3) url)
  else Raise ValidationError.

(** Raises when a key of the dictionary is not among the keys found. *)
Definition toy_raise_for_unknown (existing : list string)
    (units : list (string * string)) : exc unit :=
  if bool_decide (Forall (λ k, k ∈ existing) (dict_keys units)) then Ok ()
  else Raise ValidationError.

End Serializers.

(** * Facts about the stages *)

Module StagesFacts.
Import Stages.

Lemma forM_length {A B : Type} (f : A → exc B) (l : list A) (ys : list B) :
  forM f l = Ok ys → length ys = length l.
Proof.
  revert ys. induction l as [|x l IH]; intros ys; simpl.
  - intros [= <-]. reflexivity.
  - destruct (f x) as [y|e]; simpl; [|discriminate].
    destruct (forM f l) as [ys'|e]; simpl; [|discriminate].
    intros [= <-]. simpl. f_equal. by apply IH.
Qed.

Lemma same_item_refl e : same_item e e.
Proof. destruct e; simpl; auto. Qed.

Lemma same_item_trans e1 e2 e3 : same_item e1 e2 → same_item e2 e3 → same_item e1 e3.
Proof. destruct e1, e2, e3; simpl; try tauto; congruence. Qed.

Lemma Forall2_same_item_refl l : Forall2 same_item l l.
Proof. induction l; constructor; auto using same_item_refl. Qed.

Lemma Forall2_same_item_trans l1 l2 l3 :
  Forall2 same_item l1 l2 → Forall2 same_item l2 l3 → Forall2 same_item l1 l3.
Proof.
  intros H. revert l3. induction H; intros l3 H3; inversion H3; subst; constructor;
    eauto using same_item_trans.
Qed.

(** A list of entries that matches [items] followed by [tail] item by item is
    itself a list of items followed by the same tail of sentinels. *)
Lemma same_item_items (items : list DeclarativeContent) (k : nat) (l' : list entry) :
  Forall2 same_item (map Some items ++ replicate k None) l' →
  ∃ items', Forall2 same_dc items items' ∧ l' = map Some items' ++ replicate k None.
Proof.
  revert l'. induction items as [|dc items IH]; simpl; intros l' H.
  - exists []. split; [constructor|]. simpl.
    revert l' H. induction k as [|k IHk]; simpl; intros l' H.
    + by inversion H.
    + inversion H as [|? e' ? l'' He Hl]; subst.
      destruct e'; simpl in He; [tauto|]. f_equal. by apply IHk.
  - inversion H as [|? e' ? l'' He Hl]; subst.
    destruct e' as [dc'|]; simpl in He; [|tauto].
    destruct (IH _ Hl) as (items' & Hf & ->).
    exists (dc' :: items'). split; [by constructor|reflexivity].
Qed.

Section QueryFacts.

Variable natural_key_fields : string → list string.

Lemma replace_if_same_unit_same_item result e e' :
  replace_if_same_unit natural_key_fields result e = Ok e' → same_item e e'.
Proof.
  destruct e as [dc|]; simpl.
  - destruct (not_same_unit _ _ _) as [[]|]; simpl; intros [= <-]; simpl; reflexivity.
  - intros [= <-]. exact I.
Qed.

Lemma forM_replace_same_item result l l' :
  forM (replace_if_same_unit natural_key_fields result) l = Ok l' →
  Forall2 same_item l l'.
Proof.
  revert l'. induction l as [|e l IH]; simpl; intros l'.
  - intros [= <-]. constructor.
  - destruct (replace_if_same_unit _ _ e) as [e'|] eqn:He; simpl; [|discriminate].
    destruct (forM _ l) as [ys|]; simpl; [|discriminate].
    intros [= <-]. constructor; eauto using replace_if_same_unit_same_item.
Qed.

Lemma apply_results_same_item results l l' :
  apply_results natural_key_fields results l = Ok l' → Forall2 same_item l l'.
Proof.
  unfold apply_results. revert l l'.
  induction results as [|r results IH]; simpl; intros l l'.
  - intros [= <-]. apply Forall2_same_item_refl.
  - destruct (forM _ l) as [l1|] eqn:H1; simpl; [|discriminate].
    intros H. eapply Forall2_same_item_trans; eauto using forM_replace_same_item.
Qed.

Lemma run_queries_same_item rows qs l log l' log' :
  run_queries natural_key_fields rows qs l log = Ok (l', log') →
  Forall2 same_item l l' ∧ log' = log ++ qs.
Proof.
  revert l log. induction qs as [|[t q] qs IH]; simpl; intros l log.
  - intros [= <- <-]. split; [apply Forall2_same_item_refl|by rewrite app_nil_r].
  - destruct (apply_results _ _ l) as [l1|] eqn:H1; simpl; [|discriminate].
    intros H. apply IH in H as [H ->]. split.
    + eapply Forall2_same_item_trans; eauto using apply_results_same_item.
    + by rewrite <- app_assoc.
Qed.

Lemma build_content_q_by_type_shutdown l shutdown qs shutdown' qs' :
  build_content_q_by_type natural_key_fields l shutdown qs = Ok (shutdown', qs') →
  shutdown' = shutdown || existsb is_sentinel l.
Proof.
  revert shutdown qs. induction l as [|[dc|] l IH]; simpl; intros shutdown qs.
  - intros [= <- _]. by rewrite orb_false_r.
  - destruct (natural_key_dict _ _) as [k|]; simpl; [|discriminate]. apply IH.
  - intros H. apply IH in H. rewrite H. by rewrite orb_true_r.
Qed.

Lemma resolve_batch_same_item rows l shutdown l' log shutdown' :
  resolve_batch natural_key_fields rows l shutdown = Ok (l', log, shutdown') →
  Forall2 same_item l l' ∧ shutdown' = shutdown || existsb is_sentinel l.
Proof.
  unfold resolve_batch.
  destruct (build_content_q_by_type _ l shutdown []) as [[sd qs]|] eqn:Hb; simpl;
    [|discriminate].
  destruct (run_queries _ rows qs l []) as [[l1 log1]|] eqn:Hr; simpl; [|discriminate].
  intros [= <- <- <-]. split.
  - by apply run_queries_same_item in Hr as [? _].
  - by eapply build_content_q_by_type_shutdown.
Qed.

(** What a drain takes from a queue that holds items and then one sentinel:
    a non-empty prefix of the items, or everything. *)
Lemma drain_items_sentinel sched (items : list DeclarativeContent) b rest sched' :
  drain sched (map Some items ++ [None]) = (b, rest, sched') →
  (∃ i1 i2, items = i1 ++ i2 ∧ b = map Some i1 ∧ rest = map Some i2 ++ [None]
            ∧ length i2 < length items)
  ∨ (b = map Some items ++ [None] ∧ rest = []).
Proof.
  unfold drain. destruct sched as [|n sched0].
  - intros [= <- <- <-]. by right.
  - intros [= <- <- <-].
    destruct (decide (S n ≤ length items)) as [Hle|Hgt].
    + left. exists (take (S n) items), (drop (S n) items).
      rewrite take_drop. split; [done|].
      rewrite take_app_le by (by rewrite length_map).
      rewrite drop_app_le by (by rewrite length_map).
      rewrite firstn_map, skipn_map. repeat split; try done.
      rewrite length_drop. lia.
    + right. split.
      * apply take_ge. rewrite length_app, length_map. simpl. lia.
      * apply drop_ge. rewrite length_app, length_map. simpl. lia.
Qed.

Lemma existsb_is_sentinel_items (items : list DeclarativeContent) :
  existsb is_sentinel (map Some items) = false.
Proof. induction items; simpl; auto. Qed.

Lemma existsb_is_sentinel_end (items : list DeclarativeContent) :
  existsb is_sentinel (map Some items ++ [None]) = true.
Proof. induction items; simpl; auto. Qed.

Lemma Forall2_same_dc_app i1 i2 i1' i2' :
  Forall2 same_dc i1 i1' → Forall2 same_dc i2 i2' →
  Forall2 same_dc (i1 ++ i2) (i1' ++ i2').
Proof. intros. by apply Forall2_app. Qed.

(** The loop of query_existing_content_units on items followed by the
    sentinel: unless an exception ends it, it leaves the loop with every item
    put once, in order, followed by two sentinels. *)
Lemma query_loop_items_sentinel fuel :
  ∀ sched (items : list DeclarativeContent) db out log,
    length items < fuel →
    let r := query_loop natural_key_fields fuel sched
               (map Some items ++ [None]) db out log in
    (ended r = Terminated ∧
     ∃ items', Forall2 same_dc items items' ∧
               out_q r = out ++ map Some items' ++ [None; None])
    ∨ (∃ e, ended r = Crashed e).
Proof.
  induction fuel as [|fuel IH]; intros sched items db out log Hlt; [lia|].
  simpl.
  destruct (map Some items ++ [None]) as [|e0 q0] eqn:Hq.
  { destruct items; discriminate. }
  rewrite <- Hq. clear e0 q0 Hq.
  destruct (drain sched (map Some items ++ [None])) as [[b rest] sched'] eqn:Hd.
  destruct (resolve_batch natural_key_fields (contents db) b false)
    as [[[l issued] shutdown]|e] eqn:Hr; [|right; eauto].
  apply resolve_batch_same_item in Hr as [Hsame ->]. simpl.
  apply drain_items_sentinel in Hd
    as [(i1 & i2 & -> & -> & -> & Hlen)|[-> ->]].
  - rewrite existsb_is_sentinel_items.
    pose proof (same_item_items i1 0 l) as Hl. simpl in Hl.
    rewrite app_nil_r in Hl. destruct (Hl Hsame) as (i1' & Hf1 & ->).
    rewrite app_nil_r.
    destruct (IH sched' i2 db (out ++ map Some i1') (log ++ [issued]))
      as [[Ht (i2' & Hf2 & Hout)]|[e He]]; [lia| |right; eauto].
    left. split; [done|]. exists (i1' ++ i2'). split.
    + by apply Forall2_same_dc_app.
    + rewrite Hout, map_app, <- !app_assoc. reflexivity.
  - rewrite existsb_is_sentinel_end. simpl.
    destruct (same_item_items items 1 l Hsame) as (items' & Hf & ->).
    left. split; [done|]. exists items'. split; [done|].
    simpl. rewrite <- !app_assoc. reflexivity.
Qed.

(** *** The queries of a batch *)

Lemma q_by_type_update_keys t k qs t' :
  t' ∈ map fst (q_by_type_update t k qs) ↔ t' = t ∨ t' ∈ map fst qs.
Proof.
  induction qs as [|[t0 q0] qs IH]; simpl.
  - rewrite list_elem_of_singleton, elem_of_nil. tauto.
  - destruct (decide (t0 = t)) as [->|Hne]; simpl.
    + rewrite !elem_of_cons. tauto.
    + rewrite !elem_of_cons, IH. tauto.
Qed.

Lemma q_by_type_update_NoDup t k qs :
  NoDup (map fst qs) → NoDup (map fst (q_by_type_update t k qs)).
Proof.
  induction qs as [|[t0 q0] qs IH]; simpl; intros Hnd.
  - apply NoDup_singleton.
  - destruct (decide (t0 = t)) as [->|Hne]; simpl; [done|].
    apply NoDup_cons in Hnd as [Hnotin Hnd]. apply NoDup_cons. split; [|auto].
    rewrite q_by_type_update_keys. intros [->|?]; done.
Qed.

Lemma q_by_type_update_lookup t k qs t' :
  q_lookup t' (q_by_type_update t k qs) =
    if decide (t' = t) then Some (q_or (default Q_pk_None (q_lookup t qs)) k)
    else q_lookup t' qs.
Proof.
  induction qs as [|[t0 q0] qs IH]; simpl.
  - destruct (decide (t = t')) as [->|Hne].
    + by rewrite decide_True.
    + by rewrite decide_False by congruence.
  - destruct (decide (t0 = t)) as [->|Hne]; simpl.
    + destruct (decide (t = t')) as [->|Hne'].
      * by rewrite decide_True.
      * by rewrite decide_False by congruence.
    + destruct (decide (t0 = t')) as [->|Hne'].
      * by rewrite decide_False by congruence.
      * apply IH.
Qed.

Lemma q_lookup_elem_of t q qs :
  NoDup (map fst qs) → (t, q) ∈ qs → q_lookup t qs = Some q.
Proof.
  induction qs as [|[t0 q0] qs IH]; simpl; intros Hnd Hin.
  - by apply elem_of_nil in Hin.
  - apply NoDup_cons in Hnd as [Hnotin Hnd].
    apply elem_of_cons in Hin as [[= <- <-]|Hin].
    + by rewrite decide_True.
    + destruct (decide (t0 = t)) as [->|Hne]; [|auto].
      exfalso. apply Hnotin. apply list_elem_of_fmap. by exists (t, q).
Qed.

(** The dictionary built by lines 48-56. *)
Lemma build_content_q_by_type_spec l :
  ∀ shutdown qs shutdown' qs',
    NoDup (map fst qs) →
    build_content_q_by_type natural_key_fields l shutdown qs = Ok (shutdown', qs') →
    NoDup (map fst qs') ∧
    (∀ t, t ∈ map fst qs' ↔ t ∈ map fst qs ∨ t ∈ batch_types l) ∧
    (∀ t q, q_lookup t qs' = Some q →
       q = fold_left q_or (unit_keys_of_type natural_key_fields t l)
             (default Q_pk_None (q_lookup t qs))).
Proof.
  induction l as [|[dc|] l IH]; simpl; intros shutdown qs shutdown' qs' Hnd.
  - intros [= <- <-]. split; [done|]. split.
    + intros t. rewrite elem_of_nil. tauto.
    + intros t q Hq. by rewrite Hq.
  - destruct (natural_key_dict natural_key_fields (content dc)) as [k|e] eqn:Hk;
      simpl; [|discriminate].
    intros H. apply IH in H as (Hnd' & Hkeys & Hq);
      [|by apply q_by_type_update_NoDup].
    split; [done|]. split.
    + intros t. rewrite Hkeys, q_by_type_update_keys, elem_of_cons.
      split; [intros [[->|?]|?]|intros [?|[->|?]]]; auto.
    + intros t q Hl. apply Hq in Hl. rewrite q_by_type_update_lookup in Hl.
      destruct (decide (model_type (content dc) = t)) as [<-|Hne].
      * rewrite decide_True in Hl by done. exact Hl.
      * by rewrite decide_False in Hl by congruence.
  - intros H. by apply IH in H.
Qed.

End QueryFacts.

(** ** content_unit_saver *)

Section SaverFacts.

Variable write_fails : Store → bool.

Lemma fold_stage_artifact c das bulk m :
  ∃ m', fold_left (λ a da, stage_artifact c da a) das (bulk, m)
        = (bulk ++ map (new_content_artifact c) das, m').
Proof.
  revert bulk m. induction das as [|da das IH]; simpl; intros bulk m.
  - exists m. by rewrite app_nil_r.
  - destruct (IH (bulk ++ [new_content_artifact c da])
                 (<[relative_path da := {|
                      rad_url := url da;
                      rad_size := size (artifact da);
                      rad_md5 := md5 (artifact da);
                      rad_sha1 := sha1 (artifact da);
                      rad_sha224 := sha224 (artifact da);
                      rad_sha256 := sha256 (artifact da);
                      rad_sha384 := sha384 (artifact da);
                      rad_sha512 := sha512 (artifact da);
                      rad_remote := remote da |}]> m)) as [m' Hm'].
    exists m'. unfold new_content_artifact in *. simpl in *.
    rewrite Hm'. by rewrite <- app_assoc.
Qed.

Lemma save_ok c db c' db' :
  save write_fails c db = (Ok c', db') →
  persisted_as c c' ∧ contents db' = contents db ++ [c'] ∧
  content_artifacts db' = content_artifacts db ∧
  remote_artifacts db' = remote_artifacts db.
Proof.
  unfold save. destruct (write_fails db); [discriminate|].
  intros [= <- <-]. unfold persisted_as. simpl. eauto 10.
Qed.

(** The first loop of the transaction: one Content row per new unit, nothing
    else written yet, and the ContentArtifacts of those rows staged. *)
Lemma save_contents_spec l :
  ∀ acc db acc' db',
    save_contents write_fails l acc db = (Ok acc', db') →
    ∃ cs l',
      contents db' = contents db ++ cs ∧
      content_artifacts db' = content_artifacts db ∧
      remote_artifacts db' = remote_artifacts db ∧
      Forall2 persisted_as (map content (new_units l)) cs ∧
      st_content_artifact_bulk acc' =
        st_content_artifact_bulk acc ++ needed_content_artifacts (new_units l) cs ∧
      st_list acc' = st_list acc ++ l' ∧
      Forall2 same_item l l' ∧
      st_shutdown acc' = st_shutdown acc || existsb is_sentinel l.
Proof.
  induction l as [|[dc|] l IH]; intros acc db acc' db'; simpl.
  - intros [= <- <-]. exists [], []. rewrite !app_nil_r, orb_false_r.
    repeat split; constructor.
  - destruct (adding (content dc)) eqn:Hadd.
    + destruct (save write_fails (content dc) db) as [[c|e] db1] eqn:Hs;
        [|discriminate].
      apply save_ok in Hs as (Hp & Hc & Hca & Hra).
      destruct (fold_stage_artifact c (d_artifacts dc)
                  (st_content_artifact_bulk acc) (st_remote_artifact_map acc))
        as [m' Hm']. rewrite Hm'.
      intros H. apply IH in H
        as (cs & l' & Hc' & Hca' & Hra' & Hf & Hb & Hl & Hsame & Hsd).
      simpl in *. exists (c :: cs), (Some (set_content dc c) :: l').
      rewrite Hc', Hc, Hca', Hca, Hra', Hra, Hb, Hl, Hsd, <- !app_assoc.
      repeat split; try done.
      * by constructor.
      * constructor; [reflexivity|done].
    + intros H. apply IH in H
        as (cs & l' & Hc' & Hca' & Hra' & Hf & Hb & Hl & Hsame & Hsd).
      simpl in *. exists cs, (Some dc :: l').
      rewrite Hl, <- app_assoc. repeat split; try done.
      constructor; [reflexivity|done].
  - intros H. apply IH in H
      as (cs & l' & Hc' & Hca' & Hra' & Hf & Hb & Hl & Hsame & Hsd).
    simpl in *. exists cs, (None :: l').
    rewrite Hl, Hsd, orb_true_r, <- app_assoc. repeat split; try done.
    by constructor.
Qed.

Lemma assign_pks_inserted n l : Forall2 inserted_as l (assign_pks n l).
Proof.
  revert n. induction l as [|ca l IH]; simpl; intros n; constructor; auto.
  unfold inserted_as. simpl. eauto.
Qed.

Lemma ContentArtifact_bulk_create_ok l db rows db' :
  ContentArtifact_bulk_create write_fails l db = (Ok rows, db') →
  Forall2 inserted_as l rows ∧
  contents db' = contents db ∧
  content_artifacts db' = content_artifacts db ++ rows ∧
  remote_artifacts db' = remote_artifacts db.
Proof.
  unfold ContentArtifact_bulk_create. destruct l as [|ca l].
  - intros [= <- <-]. rewrite app_nil_r. repeat split. constructor.
  - destruct (write_fails db); [discriminate|].
    intros [= <- <-]. simpl. repeat split.
    apply (assign_pks_inserted (next_pk db) (ca :: l)).
Qed.

Lemma RemoteArtifact_bulk_create_ok l db u db' :
  RemoteArtifact_bulk_create write_fails l db = (Ok u, db') →
  contents db' = contents db ∧
  content_artifacts db' = content_artifacts db ∧
  remote_artifacts db' = remote_artifacts db ++ l.
Proof.
  unfold RemoteArtifact_bulk_create. destruct l as [|ra l].
  - intros [= <- <-]. by rewrite app_nil_r.
  - destruct (write_fails db); [discriminate|]. by intros [= <- <-].
Qed.

(** The second loop: one RemoteArtifact per inserted ContentArtifact, in
    order. *)
Lemma pair_remote_artifacts_links rows :
  ∀ m bulk ras,
    pair_remote_artifacts rows m bulk = Ok ras →
    map ra_content_artifact ras = map ra_content_artifact bulk ++ rows.
Proof.
  induction rows as [|ca rows IH]; simpl; intros m bulk ras.
  - intros [= <-]. by rewrite app_nil_r.
  - destruct (m !! ca_relative_path ca) as [data|]; [|discriminate].
    intros H. apply IH in H. rewrite H, map_app. simpl.
    by rewrite <- app_assoc.
Qed.

Lemma save_batch_body_spec l shutdown db l' shutdown' db' :
  save_batch_body write_fails l shutdown db = (Ok (l', shutdown'), db') →
  (∃ cs cas ras,
     contents db' = contents db ++ cs ∧
     content_artifacts db' = content_artifacts db ++ cas ∧
     remote_artifacts db' = remote_artifacts db ++ ras ∧
     Forall2 persisted_as (map content (new_units l)) cs ∧
     Forall2 inserted_as (needed_content_artifacts (new_units l) cs) cas ∧
     map ra_content_artifact ras = cas) ∧
  Forall2 same_item l l' ∧
  shutdown' = shutdown || existsb is_sentinel l.
Proof.
  unfold save_batch_body.
  destruct (save_contents _ l _ db) as [[acc|e] db1] eqn:H1; [|discriminate].
  destruct (ContentArtifact_bulk_create _ _ db1) as [[rows|e] db2] eqn:H2;
    [|discriminate].
  destruct (pair_remote_artifacts rows _ []) as [ras|e] eqn:H3; [|discriminate].
  destruct (RemoteArtifact_bulk_create _ ras db2) as [[u|e] db3] eqn:H4;
    [|discriminate].
  intros [= <- <- <-].
  apply save_contents_spec in H1
    as (cs & l1 & Hc & Hca & Hra & Hf & Hb & Hl & Hsame & Hsd).
  apply ContentArtifact_bulk_create_ok in H2 as (Hins & Hc2 & Hca2 & Hra2).
  apply pair_remote_artifacts_links in H3.
  apply RemoteArtifact_bulk_create_ok in H4 as (Hc3 & Hca3 & Hra3).
  simpl in *. subst l1. rewrite Hb in Hins. simpl in Hins.
  repeat split; try done.
  exists cs, rows, ras. repeat split; try congruence.
Qed.

Lemma save_batch_same_item l shutdown db l' shutdown' db' :
  save_batch write_fails l shutdown db = (Ok (l', shutdown'), db') →
  Forall2 same_item l l' ∧ shutdown' = shutdown || existsb is_sentinel l.
Proof.
  unfold save_batch, atomic.
  destruct (save_batch_body _ l shutdown db) as [[[l1 sd1]|e] db1] eqn:Hb;
    [|discriminate].
  intros [= <- <- <-]. by apply save_batch_body_spec in Hb as (_ & ? & ?).
Qed.

Lemma without_sentinels_items (items : list DeclarativeContent) (k : nat) :
  without_sentinels (map Some items ++ replicate k None) = map Some items.
Proof.
  unfold without_sentinels. induction items as [|dc items IH]; simpl.
  - induction k; simpl; auto.
  - by rewrite IH.
Qed.

(** The loop of content_unit_saver on items followed by the sentinel: unless
    an exception ends it, every item is put once, in order, followed by one
    sentinel. *)
Lemma saver_loop_items_sentinel fuel :
  ∀ sched (items : list DeclarativeContent) db out,
    length items < fuel →
    let r := saver_loop write_fails fuel sched (map Some items ++ [None]) db out in
    (ended r = Terminated ∧
     ∃ items', Forall2 same_dc items items' ∧
               out_q r = out ++ map Some items' ++ [None])
    ∨ (∃ e, ended r = Crashed e).
Proof.
  induction fuel as [|fuel IH]; intros sched items db out Hlt; [lia|].
  simpl.
  destruct (map Some items ++ [None]) as [|e0 q0] eqn:Hq.
  { destruct items; discriminate. }
  rewrite <- Hq. clear e0 q0 Hq.
  destruct (drain sched (map Some items ++ [None])) as [[b rest] sched'] eqn:Hd.
  destruct (save_batch write_fails b false db) as [[[l shutdown]|e] db1] eqn:Hr;
    [|right; eauto].
  apply save_batch_same_item in Hr as [Hsame ->]. simpl.
  apply drain_items_sentinel in Hd
    as [(i1 & i2 & -> & -> & -> & Hlen)|[-> ->]].
  - rewrite existsb_is_sentinel_items.
    pose proof (same_item_items i1 0 l) as Hl. simpl in Hl.
    rewrite app_nil_r in Hl. destruct (Hl Hsame) as (i1' & Hf1 & ->).
    pose proof (without_sentinels_items i1' 0) as Hw. simpl in Hw.
    rewrite !app_nil_r in Hw. rewrite app_nil_r, Hw.
    destruct (IH sched' i2 db1 (out ++ map Some i1'))
      as [[Ht (i2' & Hf2 & Hout)]|[e He]]; [lia| |right; eauto].
    left. split; [done|]. exists (i1' ++ i2'). split.
    + by apply Forall2_same_dc_app.
    + rewrite Hout, map_app, <- !app_assoc. reflexivity.
  - rewrite existsb_is_sentinel_end. simpl.
    destruct (same_item_items items 1 l Hsame) as (items' & Hf & ->).
    rewrite (without_sentinels_items items' 1).
    left. split; [done|]. exists items'. split; [done|].
    by rewrite <- !app_assoc.
Qed.

End SaverFacts.

(** ** The claims about the stages *)

(** C1.  The claim: in every chain of the two stages, each stage puts exactly
    one sentinel on its output queue, as the last value.  The code does not:
    on the input [file_foo, None] query_existing_content_units puts
    [file_foo, None, None], the sentinel once from its forwarding loop and
    once more after the loop; a second query stage that drains these puts
    three.  content_unit_saver puts one. *)
Theorem query_existing_content_units_puts_sentinel_twice :
  out_q (query_existing_content_units example_registry [] [Some file_foo; None]
           empty_store)
    = [Some file_foo; None; None]
  ∧ map (λ r, (ended r, sentinels (out_q r)))
      (run_chain example_registry never_fails
         [(QueryExistingContentUnits, []); (QueryExistingContentUnits, []);
          (ContentUnitSaver, [])]
         [Some file_foo; None] empty_store)
    = [(Terminated, 2); (Terminated, 3); (Terminated, 1)].
Proof. split; vm_compute; reflexivity. Qed.

(** The same for every schedule, store and list of items: whenever
    query_existing_content_units terminates on items followed by one
    sentinel, it has put every item once, in order, and then two sentinels. *)
Lemma query_existing_content_units_items_sentinel natural_key_fields sched
    (items : list DeclarativeContent) db :
  let r := query_existing_content_units natural_key_fields sched
             (map Some items ++ [None]) db in
  (ended r = Terminated ∧
   ∃ items', Forall2 same_dc items items' ∧
             out_q r = map Some items' ++ [None; None])
  ∨ (∃ e, ended r = Crashed e).
Proof.
  unfold query_existing_content_units.
  apply (query_loop_items_sentinel natural_key_fields
           (S (length (map Some items ++ [None]))) sched items db [] []).
  rewrite length_app, length_map. simpl. lia.
Qed.

(** The sibling stage does what the claim says: whenever content_unit_saver
    terminates on items followed by one sentinel, it has put every item once,
    in order, and then one sentinel. *)
Lemma content_unit_saver_items_sentinel write_fails sched
    (items : list DeclarativeContent) db :
  let r := content_unit_saver write_fails sched (map Some items ++ [None]) db in
  (ended r = Terminated ∧
   ∃ items', Forall2 same_dc items items' ∧
             out_q r = map Some items' ++ [None])
  ∨ (∃ e, ended r = Crashed e).
Proof.
  unfold content_unit_saver.
  apply (saver_loop_items_sentinel write_fails
           (S (length (map Some items ++ [None]))) sched items db []).
  rewrite length_app, length_map. simpl. lia.
Qed.

(** C2.  The claim: the join from the inserted ContentArtifacts back to the
    staged RemoteArtifact data is keyed by (content, relative_path), so two
    units of one batch that share a relative path each get their own data.
    The code keys [remote_artifact_map] by the relative path alone: for the
    batch [unit_one, unit_two], both with an artifact at path "a", the map
    holds one entry, the data of unit_two (url "http://two/a") ; the
    ContentArtifact of unit_one pops it, the one of unit_two finds nothing,
    and the batch ends in a KeyError with nothing written. *)
Theorem content_unit_saver_joins_by_relative_path_only :
  (∃ acc db row_one row_two db' data,
     save_contents never_fails [Some unit_one; Some unit_two]
       {| st_list := []; st_shutdown := false; st_content_artifact_bulk := [];
          st_remote_artifact_map := ∅ |} empty_store = (Ok acc, db)
     ∧ ContentArtifact_bulk_create never_fails (st_content_artifact_bulk acc) db
       = (Ok [row_one; row_two], db')
     ∧ attrs (ca_content row_one) !! "name" = Some "one"
     ∧ ca_relative_path row_one = "a"
     ∧ attrs (ca_content row_two) !! "name" = Some "two"
     ∧ ca_relative_path row_two = "a"
     ∧ map_to_list (st_remote_artifact_map acc) = [("a", data)]
     ∧ rad_url data = "http://two/a"
     ∧ pair_remote_artifacts [row_one] (st_remote_artifact_map acc) []
       = Ok [{| ra_content_artifact := row_one; ra_data := data |}]
     ∧ pair_remote_artifacts [row_one; row_two] (st_remote_artifact_map acc) []
       = Raise KeyError)
  ∧ save_batch never_fails [Some unit_one; Some unit_two] false empty_store
    = (Raise KeyError, empty_store).
Proof.
  split.
  - eexists _, _, _, _, _, _.
    split; [vm_compute; reflexivity|].
    split; [vm_compute; reflexivity|].
    repeat split; vm_compute; reflexivity.
  - vm_compute; reflexivity.
Qed.

Lemma pair_remote_artifacts_NoDup rows :
  ∀ m bulk ras,
    pair_remote_artifacts rows m bulk = Ok ras →
    NoDup (map ca_relative_path rows) ∧
    ∀ p, p ∈ map ca_relative_path rows → is_Some (m !! p).
Proof.
  induction rows as [|ca rows IH]; simpl; intros m bulk ras.
  - intros _. split; [constructor|]. intros p Hp. by apply elem_of_nil in Hp.
  - destruct (m !! ca_relative_path ca) as [data|] eqn:Hm; [|discriminate].
    intros H. apply IH in H as [Hnd Hin]. split.
    + apply NoDup_cons. split; [|done].
      intros Hp. apply Hin in Hp as [x Hx]. by rewrite lookup_delete_eq in Hx.
    + intros p [->|Hp]%elem_of_cons; [eauto|].
      apply Hin in Hp as [x Hx].
      apply lookup_delete_Some in Hx as [_ Hx]. eauto.
Qed.

Lemma needed_content_artifacts_paths units :
  ∀ cs, length cs = length units →
    map ca_relative_path (needed_content_artifacts units cs)
    = map relative_path (concat (map d_artifacts units)).
Proof.
  induction units as [|dc units IH]; intros [|c cs]; simpl; try done.
  intros [= Hlen]. rewrite !map_app, IH by done. f_equal.
  rewrite map_map. reflexivity.
Qed.

Lemma inserted_as_paths l rows :
  Forall2 inserted_as l rows →
  map ca_relative_path rows = map ca_relative_path l.
Proof.
  induction 1 as [|ca ca' l rows (_ & _ & Hp & _) _ IH]; simpl; [done|].
  by rewrite Hp, IH.
Qed.

(** In general: a batch is only ever saved when no two artifacts of its new
    units share a relative path, whatever units they belong to. *)
Lemma save_batch_ok_distinct_paths write_fails l shutdown db l' shutdown' db' :
  save_batch write_fails l shutdown db = (Ok (l', shutdown'), db') →
  NoDup (new_relative_paths l).
Proof.
  unfold save_batch, atomic, save_batch_body.
  destruct (save_contents _ l _ db) as [[acc|e] db1] eqn:H1; [|discriminate].
  destruct (ContentArtifact_bulk_create _ _ db1) as [[rows|e] db2] eqn:H2;
    [|discriminate].
  destruct (pair_remote_artifacts rows _ []) as [ras|e] eqn:H3; [|discriminate].
  intros _.
  apply save_contents_spec in H1
    as (cs & l1 & Hc & Hca & Hra & Hf & Hb & Hl & Hsame & Hsd).
  apply ContentArtifact_bulk_create_ok in H2 as (Hins & _).
  apply pair_remote_artifacts_NoDup in H3 as [Hnd _].
  simpl in Hb. rewrite Hb in Hins.
  rewrite (inserted_as_paths _ _ Hins) in Hnd.
  rewrite needed_content_artifacts_paths in Hnd; [done|].
  apply Forall2_length in Hf. by rewrite length_map in Hf.
Qed.

(** C3.  Every write of a batch is inside the one transaction of
    content_unit_saver: when the batch raises, at whatever point, the store is
    what it was before; when it does not, the store has gained one Content row
    per new unit, one ContentArtifact row per artifact of a new unit, linked to
    the row of its unit, and one RemoteArtifact row per ContentArtifact row. *)
Theorem content_unit_saver_batch_is_atomic write_fails l shutdown db :
  (∀ e db', save_batch write_fails l shutdown db = (Raise e, db') → db' = db)
  ∧ (∀ l' shutdown' db',
       save_batch write_fails l shutdown db = (Ok (l', shutdown'), db') →
       ∃ cs cas ras,
         contents db' = contents db ++ cs ∧
         content_artifacts db' = content_artifacts db ++ cas ∧
         remote_artifacts db' = remote_artifacts db ++ ras ∧
         Forall2 persisted_as (map content (new_units l)) cs ∧
         Forall2 inserted_as (needed_content_artifacts (new_units l) cs) cas ∧
         map ra_content_artifact ras = cas).
Proof.
  split.
  - intros e db'. unfold save_batch, atomic.
    destruct (save_batch_body _ _ _ _) as [[[]|] ?]; [discriminate|].
    by intros [= _ <-].
  - intros l' shutdown' db'. unfold save_batch, atomic.
    destruct (save_batch_body _ l shutdown db) as [[[l1 sd1]|e] db1] eqn:Hb;
      [|discriminate].
    intros [= <- <- <-]. by apply save_batch_body_spec in Hb as [? _].
Qed.

(** C3 at two batches: a store that refuses the second Content row leaves no
    row of the batch behind although the body had written the first, and a
    store that refuses nothing ends with both units fully linked. *)
Lemma content_unit_saver_batch_is_atomic_witness :
  fst (save_batch_body fails_after_first_content
         [Some unit_one; Some unit_three] false empty_store)
    = Raise DatabaseError
  ∧ length (contents (snd (save_batch_body fails_after_first_content
                             [Some unit_one; Some unit_three] false empty_store)))
    = 1
  ∧ snd (save_batch fails_after_first_content
           [Some unit_one; Some unit_three] false empty_store) = empty_store
  ∧ ∃ cs cas ras,
      contents store_after_one_and_three = contents empty_store ++ cs ∧
      content_artifacts store_after_one_and_three
        = content_artifacts empty_store ++ cas ∧
      remote_artifacts store_after_one_and_three
        = remote_artifacts empty_store ++ ras ∧
      Forall2 persisted_as
        (map content (new_units [Some unit_one; Some unit_three])) cs ∧
      Forall2 inserted_as
        (needed_content_artifacts (new_units [Some unit_one; Some unit_three]) cs)
        cas ∧
      map ra_content_artifact ras = cas.
Proof.
  split; [vm_compute; reflexivity|].
  split; [vm_compute; reflexivity|].
  split.
  - apply (proj1 (content_unit_saver_batch_is_atomic fails_after_first_content
                    [Some unit_one; Some unit_three] false empty_store)
             DatabaseError).
    vm_compute; reflexivity.
  - apply (proj2 (content_unit_saver_batch_is_atomic never_fails
                    [Some unit_one; Some unit_three] false empty_store)
             (fst (default ([], false)
                     (match fst (save_batch never_fails
                                   [Some unit_one; Some unit_three] false
                                   empty_store)
                      with Ok x => Some x | Raise _ => None end)))
             false).
    vm_compute; reflexivity.
Defined.

(** C4.  The claim: an entry is replaced by a returned record only if it has
    the record's concrete type.  The code compares the natural-key fields of
    the record's type and never the types: with the file "foo" stored, the
    batch [file_foo, package_foo] leaves the stage with the content of the
    package "foo" version "1" replaced by the stored file. *)
Theorem query_existing_content_units_replaces_across_types :
  model_type (content package_foo) ≠ model_type file_row
  ∧ resolve_batch example_registry [file_row]
      [Some file_foo; Some package_foo] false
    = Ok ([Some (set_content file_foo file_row);
           Some (set_content package_foo file_row)],
          [("file", Q_or Q_pk_None (Q_kwargs [("name", "foo")]));
           ("package",
            Q_or Q_pk_None (Q_kwargs [("name", "foo"); ("version", "1")]))],
          false)
  ∧ map (fmap (λ dc, model_type (content dc)))
      (out_q (query_existing_content_units example_registry []
                [Some file_foo; Some package_foo; None] store_with_file))
    = [Some "file"; Some "file"; None; None].
Proof. split; [discriminate|]. split; vm_compute; reflexivity. Qed.

(** The field loop finds the same unit exactly when the content carries every
    natural-key field of the record's type with the record's value. *)
Lemma not_same_unit_false c result fields :
  not_same_unit c result fields = Ok false ↔
  Forall (λ f, is_Some (attrs c !! f) ∧ attrs c !! f = attrs result !! f) fields.
Proof.
  induction fields as [|f fields IH]; simpl.
  - split; [constructor|done].
  - rewrite Forall_cons, <- IH. unfold getattr.
    destruct (attrs c !! f) as [a|]; simpl.
    + destruct (attrs result !! f) as [b|]; simpl.
      * destruct (decide (a = b)) as [->|Hne].
        -- split; [eauto|tauto].
        -- split; [discriminate|]. intros [[_ [= ?]] _]. done.
      * split; [discriminate|]. intros [[_ [= ?]] _].
    + split; [discriminate|]. intros [[[? [= ?]] _] _].
Qed.

(** In general the replacement asks nothing of the entry's type. *)
Lemma replace_if_same_unit_any_type natural_key_fields result dc :
  Forall (λ f, is_Some (attrs (content dc) !! f)
               ∧ attrs (content dc) !! f = attrs result !! f)
    (natural_key_fields (model_type result)) →
  replace_if_same_unit natural_key_fields result (Some dc)
  = Ok (Some (set_content dc result)).
Proof.
  intros H. apply not_same_unit_false in H. simpl. by rewrite H.
Qed.

(** C5 fails on the batch [marker]: the type "marker" has no natural-key
    field, and the stage still issues a query for it, with the predicate
    pk=None. *)
Lemma query_issued_for_empty_natural_key :
  ¬ skips_types_with_empty_keys example_registry [] [Some marker].
Proof.
  intros H.
  apply (H "marker" [Some marker] [("marker", Q_pk_None)] false).
  - vm_compute; reflexivity.
  - simpl. apply list_elem_of_singleton. reflexivity.
  - intros dc Hdc _. apply list_elem_of_singleton in Hdc as [= ->].
    vm_compute; reflexivity.
  - simpl. apply list_elem_of_singleton. reflexivity.
Qed.

(** C5, amended.  A batch that is resolved has issued exactly one query per
    concrete type that has an entry in the batch, whatever the natural keys
    are; the predicate of the query for a type is pk=None joined by [|] with
    the natural keys of the entries of that type, in batch order. *)
Theorem one_query_per_type_in_batch natural_key_fields rows l shutdown
    l' log shutdown' :
  resolve_batch natural_key_fields rows l shutdown = Ok (l', log, shutdown') →
  NoDup (map fst log)
  ∧ (∀ t, t ∈ map fst log ↔ t ∈ batch_types l)
  ∧ (∀ t q, (t, q) ∈ log →
       q = fold_left q_or (unit_keys_of_type natural_key_fields t l) Q_pk_None).
Proof.
  unfold resolve_batch.
  destruct (build_content_q_by_type _ l shutdown []) as [[sd qs]|] eqn:Hb; simpl;
    [|discriminate].
  destruct (run_queries _ rows qs l []) as [[l1 log1]|] eqn:Hr; simpl; [|discriminate].
  intros [= <- <- <-].
  apply run_queries_same_item in Hr as [_ ->]. simpl.
  apply build_content_q_by_type_spec in Hb as (Hnd & Hkeys & Hq); [|constructor].
  split; [done|]. split.
  - intros t. rewrite Hkeys. simpl. rewrite elem_of_nil. tauto.
  - intros t q Hin. apply (Hq t q). by apply q_lookup_elem_of.
Qed.

Lemma one_query_per_type_in_batch_witness :
  NoDup (map fst [("marker", Q_pk_None);
                  ("file", Q_or Q_pk_None (Q_kwargs [("name", "foo")]))])
  ∧ (∀ t, t ∈ map fst [("marker", Q_pk_None);
                       ("file", Q_or Q_pk_None (Q_kwargs [("name", "foo")]))]
          ↔ t ∈ batch_types [Some marker; Some file_foo; None; Some marker])
  ∧ (∀ t q, (t, q) ∈ [("marker", Q_pk_None);
                      ("file", Q_or Q_pk_None (Q_kwargs [("name", "foo")]))] →
       q = fold_left q_or
             (unit_keys_of_type example_registry t
                [Some marker; Some file_foo; None; Some marker]) Q_pk_None).
Proof.
  apply (one_query_per_type_in_batch example_registry []
           [Some marker; Some file_foo; None; Some marker] false
           [Some marker; Some file_foo; None; Some marker] _ true).
  vm_compute; reflexivity.
Defined.

End StagesFacts.

(** * Facts about the tasks *)

Module TasksFacts.
Import Tasks.

(** ** delete_version *)

Lemma get_version_Ok pk d version :
  get_version pk d = Ok version →
  version ∈ version_table d ∧ version_pk version = pk.
Proof.
  unfold get_version.
  destruct (List.find _ _) as [v|] eqn:Hf; [|discriminate].
  intros [= ->]. apply find_some in Hf as [Hin Hpk].
  split; [by apply list_elem_of_In|]. by apply bool_decide_eq_true in Hpk.
Qed.

Lemma get_version_absent pk d :
  (∀ v, v ∈ version_table d → version_pk v ≠ pk) →
  get_version pk d = Raise DoesNotExist.
Proof.
  intros H. unfold get_version.
  destruct (List.find _ _) as [v|] eqn:Hf; [|done].
  apply find_some in Hf as [Hin Hpk].
  apply bool_decide_eq_true in Hpk. apply list_elem_of_In in Hin.
  by destruct (H v Hin).
Qed.


(** C7.  delete_version with a key that no RepositoryVersion has only logs
    that there is nothing to do; with the key of a version whose repository
    has at most one complete version it raises a validation error and leaves
    the world as it was; otherwise it logs and deletes that version, and
    only that version: every other row of every table stays.  Check and
    delete are one transaction: whatever raises leaves the database as it
    was, and that for every [version.delete()], also one that raises after
    it has written: then the exception is passed on, the log line stays and
    the database is the one before the call. *)
Theorem delete_version_cases pk w :
  ((∀ v, v ∈ version_table (db w) → version_pk v ≠ pk) →
   delete_version pk w = (Ok (), emit Info_version_not_found w))
  ∧ (∀ version,
       get_version pk (db w) = Ok version →
       complete_count (repository version) (db w) ≤ 1 →
       delete_version pk w = (Raise ValidationError, w))
  ∧ (∀ version,
       get_version pk (db w) = Ok version →
       1 < complete_count (repository version) (db w) →
       ∃ w', delete_version pk w = (Ok (), w') ∧
             (∀ v, v ∈ version_table (db w') ↔
                   v ∈ version_table (db w) ∧ version_pk v ≠ pk) ∧
             content_table (db w') = content_table (db w) ∧
             content_artifact_table (db w') = content_artifact_table (db w) ∧
             remote_artifact_table (db w') = remote_artifact_table (db w) ∧
             repository_table (db w') = repository_table (db w) ∧
             storage w' = storage w ∧
             log w' = log w ++ [Info_deleting_version (number version)
                                  (repository_name version (db w))])
  ∧ (∀ e w', delete_version pk w = (Raise e, w') → db w' = db w)
  ∧ (∀ version_delete : RepositoryVersion → Db → exc unit * Db,
       ((∀ v, v ∈ version_table (db w) → version_pk v ≠ pk) →
        delete_version_with version_delete pk w
        = (Ok (), emit Info_version_not_found w))
       ∧ (∀ version,
            get_version pk (db w) = Ok version →
            complete_count (repository version) (db w) ≤ 1 →
            delete_version_with version_delete pk w = (Raise ValidationError, w))
       ∧ (∀ version d,
            get_version pk (db w) = Ok version →
            1 < complete_count (repository version) (db w) →
            version_delete version (db w) = (Ok (), d) →
            delete_version_with version_delete pk w
            = (Ok (), set_db d (emit (Info_deleting_version (number version)
                                        (repository_name version (db w))) w)))
       ∧ (∀ version e d,
            get_version pk (db w) = Ok version →
            1 < complete_count (repository version) (db w) →
            version_delete version (db w) = (Raise e, d) →
            delete_version_with version_delete pk w
            = (Raise e, emit (Info_deleting_version (number version)
                                (repository_name version (db w))) w))
       ∧ (∀ e w', delete_version_with version_delete pk w = (Raise e, w') →
                  db w' = db w)).
Proof.
  assert (∀ version_delete : RepositoryVersion → Db → exc unit * Db,
            ((∀ v, v ∈ version_table (db w) → version_pk v ≠ pk) →
             delete_version_with version_delete pk w
             = (Ok (), emit Info_version_not_found w))
            ∧ (∀ version,
                 get_version pk (db w) = Ok version →
                 complete_count (repository version) (db w) ≤ 1 →
                 delete_version_with version_delete pk w
                 = (Raise ValidationError, w))
            ∧ (∀ version d,
                 get_version pk (db w) = Ok version →
                 1 < complete_count (repository version) (db w) →
                 version_delete version (db w) = (Ok (), d) →
                 delete_version_with version_delete pk w
                 = (Ok (), set_db d (emit (Info_deleting_version (number version)
                                             (repository_name version (db w))) w)))
            ∧ (∀ version e d,
                 get_version pk (db w) = Ok version →
                 1 < complete_count (repository version) (db w) →
                 version_delete version (db w) = (Raise e, d) →
                 delete_version_with version_delete pk w
                 = (Raise e, emit (Info_deleting_version (number version)
                                     (repository_name version (db w))) w))
            ∧ (∀ e w', delete_version_with version_delete pk w = (Raise e, w') →
                       db w' = db w)) as Hwith.
  { intros version_delete.
    unfold delete_version_with, atomic_db.
    split; [|split; [|split; [|split]]]; [unfold delete_version_body_with..|].
    - intros H. by rewrite (get_version_absent pk (db w) H).
    - intros version Hv Hle. rewrite Hv.
      rewrite bool_decide_eq_true_2 by done. by destruct w as [[]].
    - intros version d Hv Hlt Hd. rewrite Hv.
      rewrite bool_decide_eq_false_2 by lia. cbn zeta.
      change (db (emit (Info_deleting_version (number version)
                          (repository_name version (db w))) w)) with (db w).
      by rewrite Hd.
    - intros version e d Hv Hlt Hd. rewrite Hv.
      rewrite bool_decide_eq_false_2 by lia. cbn zeta.
      change (db (emit (Info_deleting_version (number version)
                          (repository_name version (db w))) w)) with (db w).
      by rewrite Hd.
    - intros e w'.
      destruct (delete_version_body_with version_delete pk w) as [[u|e'] w1];
        [discriminate|]. by intros [= _ <-]. }
  destruct (Hwith version_delete_removes_row) as (H1 & H2 & H3 & _ & H5).
  split; [exact H1|]. split; [exact H2|]. split; [|split; [exact H5|exact Hwith]].
  intros version Hv Hlt. eexists. split.
  { apply (H3 version (RepositoryVersion_delete version (db w)) Hv Hlt).
    reflexivity. }
  simpl. split; [|by repeat split].
  apply get_version_Ok in Hv as [_ Hv]. intros v. split.
  + intros Hin. apply list_elem_of_In, filter_In in Hin as [Hin Hpk].
    apply negb_true_iff, bool_decide_eq_false in Hpk.
    split; [by apply list_elem_of_In|congruence].
  + intros [Hin Hpk]. apply list_elem_of_In, filter_In. split.
    * by apply list_elem_of_In.
    * apply negb_true_iff, bool_decide_eq_false. congruence.
Qed.

(** C7 at three worlds: an unknown key, the only complete version of a
    repository, and version 1 of three complete versions; and for version 1
    with a [version.delete()] that raises after it has removed the row: the
    body of the transaction has changed the database, delete_version has
    not. *)
Lemma delete_version_cases_witness :
  delete_version "v9" (world_of (db_of three_versions))
    = (Ok (), emit Info_version_not_found (world_of (db_of three_versions)))
  ∧ delete_version "v0" (world_of (db_of one_complete_version))
    = (Raise ValidationError, world_of (db_of one_complete_version))
  ∧ (∃ w', delete_version "v1" (world_of (db_of three_versions)) = (Ok (), w') ∧
           map version_pk (version_table (db w')) = ["v0"; "v2"])
  ∧ map version_pk
      (version_table
         (db (snd (delete_version_body_with version_delete_fails_late "v1"
                     (world_of (db_of three_versions))))))
    = ["v0"; "v2"]
  ∧ delete_version_with version_delete_fails_late "v1"
      (world_of (db_of three_versions))
    = (Raise DatabaseError,
       emit (Info_deleting_version 1 "one") (world_of (db_of three_versions))).
Proof.
  split; [|split; [|split; [|split]]].
  - apply (proj1 (delete_version_cases "v9" (world_of (db_of three_versions)))).
    intros v Hv. simpl in Hv.
    repeat (apply elem_of_cons in Hv as [->|Hv]; [discriminate|]).
    by apply elem_of_nil in Hv.
  - apply (proj1 (proj2 (delete_version_cases "v0"
                           (world_of (db_of one_complete_version))))
             (version_of "v0" 0 true [])).
    + reflexivity.
    + vm_compute. lia.
  - destruct (proj1 (proj2 (proj2 (delete_version_cases "v1"
                                     (world_of (db_of three_versions)))))
                (version_of "v1" 1 true ["x"])) as (w' & Hw' & _).
    + reflexivity.
    + vm_compute. lia.
    + exists w'. split; [exact Hw'|].
      vm_compute in Hw'. injection Hw' as <-. vm_compute. reflexivity.
  - vm_compute. reflexivity.
  - apply (proj1 (proj2 (proj2 (proj2
             (proj2 (proj2 (proj2 (proj2 (delete_version_cases "v1"
                                            (world_of (db_of three_versions))))))
                version_delete_fails_late))))
             (version_of "v1" 1 true ["x"]) DatabaseError
             (RepositoryVersion_delete (version_of "v1" 1 true ["x"])
                (db (world_of (db_of three_versions))))).
    + reflexivity.
    + vm_compute. lia.
    + reflexivity.
Defined.

(** ** _repair_ca *)

Section RepairFacts.

Variable sha256_hexdigest : list Byte.byte → string.
Variable downloader_run : RemoteArtifact → option (list Byte.byte * string).

Lemma emit_all_nil w : emit_all [] w = w.
Proof. destruct w. unfold emit_all. simpl. by rewrite app_nil_r. Qed.

Lemma emit_all_emit_all es1 es2 w :
  emit_all es2 (emit_all es1 w) = emit_all (es1 ++ es2) w.
Proof. unfold emit_all. simpl. by rewrite app_assoc. Qed.

(** Sources that fail or deliver another digest are passed over; all they
    leave is their lines in the log. *)
Lemma repair_from_rejected a with_report tried :
  ∀ rest w,
    Forall (λ ra, verified downloader_run a ra = None) tried →
    repair_from downloader_run a with_report (tried ++ rest) w
    = repair_from downloader_run a with_report rest
        (emit_all (concat (map (attempt_events downloader_run) tried)) w).
Proof.
  induction tried as [|ra tried IH]; intros rest w Hrej; simpl.
  - by rewrite emit_all_nil.
  - apply Forall_cons in Hrej as [Hra Hrej].
    unfold verified in Hra. unfold attempt_events at 1.
    destruct (downloader_run ra) as [[src digest]|].
    + destruct (decide (digest = sha256 a)); [discriminate|].
      rewrite IH by done. f_equal.
      change (emit (Downloader_run (ra_url ra)) w)
        with (emit_all [Downloader_run (ra_url ra)] w).
      by rewrite emit_all_emit_all.
    + rewrite IH by done. f_equal.
      change (emit (Warning_redownload_failed (ra_url ra))
                (emit (Downloader_run (ra_url ra)) w))
        with (emit_all [Warning_redownload_failed (ra_url ra)]
                (emit_all [Downloader_run (ra_url ra)] w)).
      by rewrite !emit_all_emit_all.
Qed.

(** C6.  _repair_ca tries the RemoteArtifacts of the ContentArtifact in their
    stored order.  Sources before the first verified one are tried and leave
    the stored file alone; at the first source whose download has the recorded
    sha256 the file is deleted and saved anew from that download, no later
    source is tried, and the result is True.  When no source is verified, or
    there is none, the file is deleted and the result is False. *)
Theorem repair_ca_first_verified_source content_artifact a with_report w :
  ca_artifact content_artifact = Some a →
  (∀ tried ra rest src,
     remoteartifact_set content_artifact (db w) = tried ++ ra :: rest →
     Forall (λ r, verified downloader_run a r = None) tried →
     verified downloader_run a ra = Some src →
     ∃ w', _repair_ca downloader_run content_artifact with_report w = (Ok true, w')
           ∧ storage w' = <[file_name a := src]> (storage w)
           ∧ log w' = log w ++ concat (map (attempt_events downloader_run) tried)
                        ++ [Downloader_run (ra_url ra); File_delete (file_name a);
                            File_save (file_name a) src]
           ∧ repaired (progress w')
             = repaired (progress w) + (if with_report then 1 else 0)
           ∧ db w' = db w)
  ∧ (Forall (λ r, verified downloader_run a r = None)
       (remoteartifact_set content_artifact (db w)) →
     ∃ w', _repair_ca downloader_run content_artifact with_report w = (Ok false, w')
           ∧ storage w' = delete (file_name a) (storage w)
           ∧ log w' = log w
                        ++ match remoteartifact_set content_artifact (db w) with
                           | [] => [Warning_no_remote_source (artifact_pk a)]
                           | sources => concat (map (attempt_events downloader_run) sources)
                           end
                        ++ [Warning_deleting_file (artifact_pk a);
                            File_delete (file_name a)]
           ∧ progress w' = progress w
           ∧ db w' = db w).
Proof.
  intros Ha. unfold _repair_ca. rewrite Ha. split.
  - intros tried ra rest src Hset Hrej Hok. rewrite Hset. clear Hset.
    destruct (tried ++ ra :: rest) as [|r0 rs] eqn:Hl.
    { by destruct tried. }
    rewrite <- Hl. clear r0 rs Hl.
    rewrite (repair_from_rejected a with_report tried (ra :: rest) w Hrej).
    simpl. unfold verified in Hok.
    destruct (downloader_run ra) as [[src' digest]|]; [|discriminate].
    destruct (decide (digest = sha256 a)); [|discriminate].
    injection Hok as ->.
    eexists. split; [reflexivity|].
    destruct with_report; simpl; rewrite insert_delete_eq, <- !app_assoc;
      repeat split; try done; lia.
  - intros Hrej.
    destruct (remoteartifact_set content_artifact (db w)) as [|r0 rs] eqn:Hl.
    + eexists. split; [reflexivity|]. simpl. by rewrite <- !app_assoc.
    + pose proof (repair_from_rejected a with_report (r0 :: rs) [] w Hrej) as H.
      rewrite app_nil_r in H. rewrite H. simpl.
      eexists. split; [reflexivity|]. simpl.
      repeat split; try done. app_norm.
Qed.

End RepairFacts.

(** C6 at the scenario: the unreachable source and the one with altered bytes
    are passed over, the third source repairs the file, the fourth is not
    tried; an artifact without sources loses its file. *)
Lemma repair_ca_first_verified_source_witness :
  (∃ w', _repair_ca toy_downloader ca_f true (repair_world three_versions)
         = (Ok true, w')
         ∧ storage w' = <[ "artifact/f" := good_bytes ]>
                          (storage (repair_world three_versions))
         ∧ log w' = [Downloader_run "http://down/f";
                     Warning_redownload_failed "http://down/f";
                     Downloader_run "http://mirror1/f";
                     Downloader_run "http://mirror2/f";
                     File_delete "artifact/f";
                     File_save "artifact/f" good_bytes]
         ∧ repaired (progress w') = 1)
  ∧ (∃ w', _repair_ca toy_downloader ca_g true (repair_world three_versions)
           = (Ok false, w')
           ∧ storage w' = delete "artifact/g" (storage (repair_world three_versions))
           ∧ log w' = [Warning_no_remote_source "a2"; Warning_deleting_file "a2";
                       File_delete "artifact/g"]).
Proof.
  split.
  - destruct (proj1 (repair_ca_first_verified_source toy_downloader
                       ca_f artifact_f true (repair_world three_versions)
                       eq_refl)
                [ra_of "ra0" "down"; ra_of "ra1" "mirror1"]
                (ra_of "ra2" "mirror2") [ra_of "ra3" "mirror2"] good_bytes)
      as (w' & Hr & Hs & Hl & Hp & _).
    + reflexivity.
    + repeat constructor.
    + reflexivity.
    + exists w'. repeat split; [exact Hr|exact Hs|exact Hl|exact Hp].
  - destruct (proj2 (repair_ca_first_verified_source toy_downloader
                       ca_g artifact_g true (repair_world three_versions)
                       eq_refl))
      as (w' & Hr & Hs & Hl & _).
    + constructor.
    + exists w'. repeat split; [exact Hr|exact Hs|exact Hl].
Defined.

(** ** The scope of a repair *)

Section ScopeFacts.

Variable sha256_hexdigest : list Byte.byte → string.
Variable downloader_run : RemoteArtifact → option (list Byte.byte * string).

(** C10.  With a subset that has no row, _repair_artifacts_for_content does
    what it does without a subset: it scans every ContentArtifact with an
    artifact whose content is in the current domain.  So repair_version on a
    version without content is the repair of the whole domain. *)
Theorem empty_subset_repairs_whole_domain verify_checksums w :
  _repair_artifacts_for_content sha256_hexdigest downloader_run (Some [])
      verify_checksums w
    = _repair_artifacts_for_content sha256_hexdigest downloader_run None
        verify_checksums w
  ∧ (∀ ca, ca ∈ scan_query_set (Some []) w ↔
           ca ∈ content_artifact_table (db w) ∧ ca_artifact ca ≠ None ∧
           ∃ c, c ∈ content_table (db w) ∧ pulp_domain c = domain w ∧
                content_pk c = ca_content ca)
  ∧ (∀ pk version,
       get_version pk (db w) = Ok version →
       version_content version (db w) = [] →
       repair_version sha256_hexdigest downloader_run pk verify_checksums w
       = _repair_artifacts_for_content sha256_hexdigest downloader_run None
           verify_checksums
           (emit (Info_repairing_version (number version)
                    (repository_name version (db w))) w)).
Proof.
  split; [reflexivity|]. split.
  - intros ca. unfold scan_query_set.
    rewrite list_elem_of_In, !filter_In, <- list_elem_of_In.
    rewrite !bool_decide_eq_true, (list_elem_of_In (map _ _)), in_map_iff.
    split.
    + intros [[Hin Ha] (c & Hc & Hcin)].
      apply filter_In in Hcin as [Hcin Hd].
      apply bool_decide_eq_true in Hd. apply list_elem_of_In in Hcin. eauto 10.
    + intros (Hin & Ha & c & Hcin & Hd & Hc). split; [done|].
      exists c. split; [done|]. apply filter_In.
      split; [by apply list_elem_of_In|by apply bool_decide_eq_true].
  - intros pk version Hv Hempty. unfold repair_version.
    rewrite Hv, Hempty. reflexivity.
Qed.

End ScopeFacts.

(** C10 at the repair scenario: version 0 has no content, and its repair
    finds the corrupted file and the missing file of the domain. *)
Lemma empty_subset_repairs_whole_domain_witness :
  repair_version toy_sha256 toy_downloader "v0" true (repair_world three_versions)
    = _repair_artifacts_for_content toy_sha256 toy_downloader None true
        (emit (Info_repairing_version 0 "one") (repair_world three_versions))
  ∧ map ca_pk (scan_query_set (Some []) (repair_world three_versions))
    = ["ca1"; "ca2"]
  ∧ progress (snd (repair_version toy_sha256 toy_downloader "v0" true
                     (repair_world three_versions)))
    = {| missing := 1; corrupted := 1; repaired := 1 |}.
Proof.
  split; [|split].
  - apply (proj2 (proj2 (empty_subset_repairs_whole_domain toy_sha256
                           toy_downloader true (repair_world three_versions)))
             "v0" (version_of "v0" 0 true [])).
    + reflexivity.
    + vm_compute. reflexivity.
  - vm_compute. reflexivity.
  - vm_compute. reflexivity.
Defined.

(** ** add_and_remove *)








End TasksFacts.

(** * More facts about the stages *)

Module StagesMore.
Import Stages StagesFacts.

(** What a drain takes from a queue that holds items only. *)
Lemma drain_items sched (items : list DeclarativeContent) b rest sched' :
  items ≠ [] →
  drain sched (map Some items) = (b, rest, sched') →
  ∃ i1 i2, items = i1 ++ i2 ∧ b = map Some i1 ∧ rest = map Some i2
           ∧ length i2 < length items.
Proof.
  intros Hne. unfold drain. destruct sched as [|n sched0].
  - intros [= <- <- <-]. exists items, []. rewrite app_nil_r.
    repeat split. destruct items; [done|simpl; lia].
  - intros [= <- <- <-].
    exists (take (S n) items), (drop (S n) items).
    rewrite take_drop, firstn_map, skipn_map. repeat split.
    rewrite length_drop. destruct items; [done|simpl; lia].
Qed.

Section QueryMore.

Variable natural_key_fields : string → list string.

(** The loop of the query stage on items without a sentinel. *)
Lemma query_loop_items fuel :
  ∀ sched (items : list DeclarativeContent) db out log,
    length items < fuel →
    let r := query_loop natural_key_fields fuel sched (map Some items) db out log in
    (ended r = Waiting ∧ in_q_left r = [] ∧
     ∃ items', Forall2 same_dc items items' ∧ out_q r = out ++ map Some items')
    ∨ (∃ e, ended r = Crashed e).
Proof.
  induction fuel as [|fuel IH]; intros sched items db out log Hlt; [lia|].
  simpl. destruct items as [|dc items].
  { simpl. left. repeat split. exists []. split; [constructor|].
    by rewrite app_nil_r. }
  change (Some dc :: map Some items) with (map Some (dc :: items)).
  destruct (map Some (dc :: items)) as [|e0 q0] eqn:Hq; [discriminate|].
  rewrite <- Hq. clear e0 q0 Hq.
  destruct (drain sched (map Some (dc :: items))) as [[b rest] sched'] eqn:Hd.
  apply drain_items in Hd as (i1 & i2 & Hitems & -> & -> & Hlen); [|done].
  destruct (resolve_batch natural_key_fields (contents db) (map Some i1) false)
    as [[[l issued] shutdown]|e] eqn:Hr; [|right; eauto].
  apply resolve_batch_same_item in Hr as [Hsame ->]. simpl.
  rewrite existsb_is_sentinel_items.
  pose proof (same_item_items i1 0 l) as Hl. simpl in Hl.
  rewrite app_nil_r in Hl. destruct (Hl Hsame) as (i1' & Hf1 & ->).
  rewrite app_nil_r.
  destruct (IH sched' i2 db (out ++ map Some i1') (log ++ [issued]))
    as [(Ht & Hleft & i2' & Hf2 & Hout)|[e He]]; [simpl in *; lia| |right; eauto].
  left. repeat split; try done. exists (i1' ++ i2'). split.
  - rewrite Hitems. by apply Forall2_same_dc_app.
  - rewrite Hout, map_app, <- !app_assoc. reflexivity.
Qed.

(** X2.  Without a sentinel on its input query_existing_content_units never
    leaves its loop: unless an exception ends it, it has put every item once,
    in order, no sentinel, has emptied its input queue and waits for more. *)
Theorem query_existing_content_units_waits_without_sentinel sched
    (items : list DeclarativeContent) db :
  let r := query_existing_content_units natural_key_fields sched
             (map Some items) db in
  (ended r = Waiting ∧ in_q_left r = [] ∧
   ∃ items', Forall2 same_dc items items' ∧ out_q r = map Some items')
  ∨ (∃ e, ended r = Crashed e).
Proof.
  unfold query_existing_content_units.
  apply (query_loop_items (S (length (map Some items))) sched items db [] []).
  rewrite length_map. lia.
Qed.

End QueryMore.

Section SaverMore.

Variable write_fails : Store → bool.

Lemma save_contents_all_saved l :
  ∀ acc db,
    all_saved l →
    save_contents write_fails l acc db
    = (Ok {| st_list := st_list acc ++ l;
             st_shutdown := st_shutdown acc || existsb is_sentinel l;
             st_content_artifact_bulk := st_content_artifact_bulk acc;
             st_remote_artifact_map := st_remote_artifact_map acc |}, db).
Proof.
  induction l as [|[dc|] l IH]; intros acc db Hs; simpl.
  - rewrite app_nil_r, orb_false_r. by destruct acc.
  - apply Forall_cons in Hs as [Hdc Hs]. rewrite Hdc, IH by done. simpl.
    by rewrite <- app_assoc.
  - apply Forall_cons in Hs as [_ Hs]. rewrite IH by done. simpl.
    by rewrite <- app_assoc, orb_true_r.
Qed.

(** X3.  A batch in which no content is still to be saved passes through
    content_unit_saver untouched and without a write: the result does not
    depend on whether the store would accept one. *)
Theorem save_batch_of_saved_units_is_noop l shutdown db :
  all_saved l →
  save_batch write_fails l shutdown db
  = (Ok (l, shutdown || existsb is_sentinel l), db).
Proof.
  intros Hs. unfold save_batch, atomic, save_batch_body.
  rewrite save_contents_all_saved by done. reflexivity.
Qed.

Lemma save_contents_saves l :
  ∀ acc db acc' db',
    all_saved (st_list acc) →
    save_contents write_fails l acc db = (Ok acc', db') →
    all_saved (st_list acc').
Proof.
  induction l as [|[dc|] l IH]; intros acc db acc' db' Hacc; simpl.
  - by intros [= <- <-].
  - destruct (adding (content dc)) eqn:Hadd.
    + destruct (save write_fails (content dc) db) as [[c|e] db1] eqn:Hs;
        [|discriminate].
      apply save_ok in Hs as ((_ & _ & Hc & _) & _).
      destruct (fold_stage_artifact c (d_artifacts dc)
                  (st_content_artifact_bulk acc) (st_remote_artifact_map acc))
        as [m' ->].
      apply IH. simpl. apply Forall_app. split; [done|]. by repeat constructor.
    + apply IH. simpl. apply Forall_app. split; [done|]. by repeat constructor.
  - apply IH. simpl. apply Forall_app. split; [done|]. by repeat constructor.
Qed.

(** Every content of a batch that was saved is saved. *)
Lemma save_batch_all_saved l shutdown db l' shutdown' db' :
  save_batch write_fails l shutdown db = (Ok (l', shutdown'), db') →
  all_saved l'.
Proof.
  unfold save_batch, atomic, save_batch_body.
  destruct (save_contents _ l _ db) as [[acc|e] db1] eqn:H1; [|discriminate].
  destruct (ContentArtifact_bulk_create _ _ db1) as [[rows|e] db2]; [|discriminate].
  destruct (pair_remote_artifacts rows _ []) as [ras|e]; [|discriminate].
  destruct (RemoteArtifact_bulk_create _ ras db2) as [[u|e] db3]; [|discriminate].
  intros [= <- <- <-].
  eapply save_contents_saves; [|exact H1]. constructor.
Qed.

End SaverMore.

(** X4.  Saving is idempotent: the batch that content_unit_saver forwards
    after a successful save, saved again in the store it left, writes nothing
    and comes out as it went in, whatever the store would accept. *)
Theorem save_batch_twice write_fails write_fails' l shutdown db l' shutdown' db'
    shutdown2 :
  save_batch write_fails l shutdown db = (Ok (l', shutdown'), db') →
  save_batch write_fails' l' shutdown2 db'
  = (Ok (l', shutdown2 || existsb is_sentinel l'), db').
Proof.
  intros H. apply save_batch_all_saved in H.
  unfold save_batch, atomic, save_batch_body.
  rewrite save_contents_all_saved by done. reflexivity.
Qed.

(** ** What the query stage does to the contents *)

Lemma kept_or_row_refl rows e : kept_or_row rows e e.
Proof. destruct e; simpl; auto. Qed.

Lemma kept_or_row_trans rows e1 e2 e3 :
  kept_or_row rows e1 e2 → kept_or_row rows e2 e3 → kept_or_row rows e1 e3.
Proof.
  destruct e1, e2, e3; simpl; try tauto.
  intros [Ha1 H1] [Ha2 H2]. split; [congruence|].
  destruct H2 as [H2|H2]; [|by right].
  rewrite H2. destruct H1 as [H1|H1]; [left; congruence|by right].
Qed.

Lemma Forall2_kept_or_row_refl rows l : Forall2 (kept_or_row rows) l l.
Proof. induction l; constructor; auto using kept_or_row_refl. Qed.

Lemma Forall2_kept_or_row_trans rows l1 l2 l3 :
  Forall2 (kept_or_row rows) l1 l2 → Forall2 (kept_or_row rows) l2 l3 →
  Forall2 (kept_or_row rows) l1 l3.
Proof.
  intros H. revert l3. induction H; intros l3 H3; inversion H3; subst;
    constructor; eauto using kept_or_row_trans.
Qed.

Lemma objects_filter_elem_of rows t q r :
  r ∈ objects_filter rows t q ↔
  r ∈ rows ∧ model_type r = t ∧ q_holds q r = true.
Proof.
  unfold objects_filter.
  rewrite list_elem_of_In, filter_In, <- list_elem_of_In, andb_true_iff,
    bool_decide_eq_true.
  tauto.
Qed.

Section ResolveMore.

Variable natural_key_fields : string → list string.

Lemma forM_replace_kept_or_row rows result l l' :
  result ∈ rows →
  forM (replace_if_same_unit natural_key_fields result) l = Ok l' →
  Forall2 (kept_or_row rows) l l'.
Proof.
  intros Hin. revert l'. induction l as [|e l IH]; simpl; intros l'.
  - intros [= <-]. constructor.
  - destruct (replace_if_same_unit _ _ e) as [e'|] eqn:He; simpl; [|discriminate].
    destruct (forM _ l) as [ys|]; simpl; [|discriminate].
    intros [= <-]. constructor; [|by apply IH].
    destruct e as [dc|]; simpl in He.
    + destruct (not_same_unit _ _ _) as [[]|]; simpl in He; try discriminate;
        injection He as <-; simpl; auto.
    + by injection He as <-.
Qed.

Lemma apply_results_kept_or_row rows results l l' :
  (∀ r, r ∈ results → r ∈ rows) →
  apply_results natural_key_fields results l = Ok l' →
  Forall2 (kept_or_row rows) l l'.
Proof.
  unfold apply_results. revert l l'.
  induction results as [|r results IH]; simpl; intros l l' Hsub.
  - intros [= <-]. apply Forall2_kept_or_row_refl.
  - destruct (forM _ l) as [l1|] eqn:H1; simpl; [|discriminate].
    intros H. eapply Forall2_kept_or_row_trans.
    + eapply forM_replace_kept_or_row; [|exact H1]. apply Hsub. by left.
    + eapply IH; [|exact H]. intros r' Hr'. apply Hsub. by right.
Qed.

Lemma run_queries_kept_or_row rows qs l log l' log' :
  run_queries natural_key_fields rows qs l log = Ok (l', log') →
  Forall2 (kept_or_row rows) l l'.
Proof.
  revert l log. induction qs as [|[t q] qs IH]; simpl; intros l log.
  - intros [= <- <-]. apply Forall2_kept_or_row_refl.
  - destruct (apply_results _ _ l) as [l1|] eqn:H1; simpl; [|discriminate].
    intros H. eapply Forall2_kept_or_row_trans; [|by eapply IH].
    eapply apply_results_kept_or_row; [|exact H1].
    intros r Hr. by apply objects_filter_elem_of in Hr as [? _].
Qed.

(** X5.  Whatever the store returns, a resolved batch has the entries it had,
    in their order, each with the artifacts it had, and each content is either
    the one the entry came with or a row of the store: the stage invents no
    content and drops, adds or reorders no entry. *)
Theorem resolve_batch_keeps_or_takes_a_row rows l shutdown l' log shutdown' :
  resolve_batch natural_key_fields rows l shutdown = Ok (l', log, shutdown') →
  Forall2 (kept_or_row rows) l l'.
Proof.
  unfold resolve_batch.
  destruct (build_content_q_by_type _ l shutdown []) as [[sd qs]|]; simpl;
    [|discriminate].
  destruct (run_queries _ rows qs l []) as [[l1 log1]|] eqn:Hr; simpl; [|discriminate].
  intros [= <- <- <-]. by eapply run_queries_kept_or_row.
Qed.

(** X6.  Against a store without Content a batch that is resolved comes out as
    it went in: every unit is still to be created. *)
Theorem resolve_batch_empty_store l shutdown l' log shutdown' :
  resolve_batch natural_key_fields [] l shutdown = Ok (l', log, shutdown') →
  l' = l.
Proof.
  unfold resolve_batch.
  destruct (build_content_q_by_type _ l shutdown []) as [[sd qs]|]; simpl;
    [|discriminate].
  destruct (run_queries _ [] qs l []) as [[l1 log1]|] eqn:Hr; simpl; [|discriminate].
  intros [= <- <- <-]. apply run_queries_kept_or_row in Hr.
  induction Hr as [|e e' l l' He _ IH]; [done|]. f_equal; [|done].
  destruct e as [[c das]|], e' as [[c' das']|]; simpl in He; try tauto.
  destruct He as [-> [->|Hin]]; [done|]. by apply elem_of_nil in Hin.
Qed.

(** *** Finding the stored unit *)

Lemma q_or_nonempty a b : q_is_empty a = false → q_is_empty (q_or a b) = false.
Proof.
  intros Ha. unfold q_or. destruct (q_is_empty b); [done|]. by rewrite Ha.
Qed.

Lemma q_or_holds a b r :
  q_is_empty a = false → q_is_empty b = false →
  q_holds (q_or a b) r = q_holds a r || q_holds b r.
Proof. intros Ha Hb. unfold q_or. by rewrite Hb, Ha. Qed.

Lemma fold_q_or_holds r keys :
  ∀ q0,
    q_is_empty q0 = false →
    Forall (λ k, q_is_empty k = false) keys →
    q_holds q0 r = true ∨ (∃ k, k ∈ keys ∧ q_holds k r = true) →
    q_holds (fold_left q_or keys q0) r = true.
Proof.
  induction keys as [|k keys IH]; simpl; intros q0 Hq0 Hne H.
  - destruct H as [H|(k & Hk & _)]; [done|]. by apply elem_of_nil in Hk.
  - apply Forall_cons in Hne as [Hk Hne].
    apply IH; [by apply q_or_nonempty|done|].
    rewrite q_or_holds by done.
    destruct H as [H|(k' & [->|Hk']%elem_of_cons & Hh)].
    + left. by rewrite H.
    + left. by rewrite Hh, orb_true_r.
    + right. eauto.
Qed.

Lemma forM_getattr_Ok c fields k :
  forM (λ f, v ← getattr c f; Ok (f, v)) fields = Ok k →
  Forall (λ '(f, v), f ∈ fields ∧ attrs c !! f = Some v) k.
Proof.
  revert k. induction fields as [|f fields IH]; simpl; intros k.
  - intros [= <-]. constructor.
  - destruct (getattr c f) as [v|] eqn:Hv; simpl; [|discriminate].
    unfold getattr in Hv. destruct (attrs c !! f) as [v'|] eqn:Hv'; [|discriminate].
    injection Hv as ->.
    destruct (forM _ fields) as [k'|]; simpl; [|discriminate].
    intros [= <-]. constructor.
    + split; [by left|done].
    + eapply Forall_impl; [by apply IH|]. intros [f' v'] [? ?].
      split; [by right|done].
Qed.

Lemma forM_getattr_is_Ok c fields :
  Forall (λ f, is_Some (attrs c !! f)) fields →
  ∃ k, forM (λ f, v ← getattr c f; Ok (f, v)) fields = Ok k.
Proof.
  induction 1 as [|f fields [v Hv] _ [k IH]]; simpl; [eauto|].
  assert (getattr c f = Ok v) as -> by (unfold getattr; by rewrite Hv).
  simpl. rewrite IH. simpl. eauto.
Qed.

Lemma unit_keys_of_type_nonempty t l :
  natural_key_fields t ≠ [] →
  Forall (λ k, q_is_empty k = false) (unit_keys_of_type natural_key_fields t l).
Proof.
  intros Hne. induction l as [|[dc|] l IH]; simpl; [constructor| |done].
  destruct (decide (model_type (content dc) = t)) as [Ht|]; [|done].
  destruct (natural_key_dict _ _) as [k|] eqn:Hk; [|done].
  constructor; [|done]. unfold natural_key_dict in Hk.
  apply forM_length in Hk. rewrite Ht in Hk.
  destruct k; [|done]. destruct (natural_key_fields t); [done|discriminate].
Qed.

Lemma unit_keys_of_type_elem_of t l dc k :
  Some dc ∈ l → model_type (content dc) = t →
  natural_key_dict natural_key_fields (content dc) = Ok k →
  Q_kwargs k ∈ unit_keys_of_type natural_key_fields t l.
Proof.
  intros Hin Ht Hk. induction l as [|[dc0|] l IH]; simpl.
  - by apply elem_of_nil in Hin.
  - apply elem_of_cons in Hin as [[= <-]|Hin].
    + rewrite decide_True, Hk by done. by left.
    + destruct (decide _); [|auto]. destruct (natural_key_dict _ (content dc0));
        [right|]; auto.
  - apply elem_of_cons in Hin as [[=]|Hin]. auto.
Qed.

Lemma single_key_dictionary (t : string) (qs : list (string * Q)) :
  NoDup (map fst qs) → (∀ t', t' ∈ map fst qs → t' = t) → t ∈ map fst qs →
  ∃ q, qs = [(t, q)].
Proof.
  destruct qs as [|[t1 q1] [|[t2 q2] qs]]; simpl; intros Hnd Hall Hin.
  - by apply elem_of_nil in Hin.
  - exists q1. f_equal. f_equal. apply Hall. by left.
  - exfalso. apply NoDup_cons in Hnd as [Hnotin _]. apply Hnotin.
    rewrite (Hall t1), (Hall t2); [by left| |by left]. right. by left.
Qed.

Lemma batch_of_type_types t l t' :
  batch_of_type t l → t' ∈ batch_types l → t' = t.
Proof.
  induction 1 as [|[dc|] l He _ IH]; simpl; intros Hin.
  - by apply elem_of_nil in Hin.
  - apply elem_of_cons in Hin as [->|Hin]; auto.
  - auto.
Qed.

Lemma batch_types_elem_of l dc :
  Some dc ∈ l → model_type (content dc) ∈ batch_types l.
Proof.
  induction l as [|[dc0|] l IH]; simpl; intros Hin.
  - by apply elem_of_nil in Hin.
  - apply elem_of_cons in Hin as [[= <-]|Hin]; [by left|right; auto].
  - apply elem_of_cons in Hin as [[=]|Hin]. auto.
Qed.

Lemma forM_lookup {A B : Type} (f : A → exc B) (l : list A) (l' : list B) i x :
  forM f l = Ok l' → l !! i = Some x →
  ∃ y, l' !! i = Some y ∧ f x = Ok y.
Proof.
  revert l' i. induction l as [|a l IH]; simpl; intros l' i; [done|].
  destruct (f a) as [b|] eqn:Hb; simpl; [|discriminate].
  destruct (forM f l) as [ys|]; simpl; [|discriminate].
  intros [= <-]. destruct i as [|i]; simpl.
  - intros [= <-]. eauto.
  - by apply IH.
Qed.

(** One record applied to one entry, for an entry that carries the natural
    key of [orig]. *)
Lemma replace_if_same_unit_step t orig result dc e' :
  model_type result = t →
  agrees_on (natural_key_fields t) orig (content dc) →
  replace_if_same_unit natural_key_fields result (Some dc) = Ok e' →
  ∃ dc', e' = Some dc' ∧ d_artifacts dc' = d_artifacts dc ∧
         agrees_on (natural_key_fields t) orig (content dc') ∧
         (content dc' = content dc ∨ content dc' = result) ∧
         (agrees_on (natural_key_fields t) orig result → content dc' = result).
Proof.
  intros Ht Hagree. simpl. rewrite Ht.
  destruct (not_same_unit (content dc) result (natural_key_fields t))
    as [[|]|] eqn:Hns; simpl; [| |discriminate]; intros [= <-].
  - exists dc. repeat split; auto. intros Hres. exfalso.
    assert (not_same_unit (content dc) result (natural_key_fields t) = Ok false)
      as Hf; [|congruence].
    apply not_same_unit_false. unfold agrees_on in *.
    rewrite Forall_forall in *. intros f Hf.
    destruct (Hagree f Hf) as [Hs Hc]. destruct (Hres f Hf) as [_ Hr].
    rewrite Hc, Hr. done.
  - exists (set_content dc result). simpl. repeat split; auto.
    apply not_same_unit_false in Hns. unfold agrees_on in *.
    rewrite Forall_forall in *. intros f Hf.
    destruct (Hagree f Hf) as [Hs Hc]. destruct (Hns f Hf) as [_ Hr].
    split; [done|]. by rewrite <- Hr.
Qed.

Lemma apply_results_track t orig i results :
  ∀ l l' dc,
    apply_results natural_key_fields results l = Ok l' →
    l !! i = Some (Some dc) →
    (∀ r, r ∈ results → model_type r = t) →
    agrees_on (natural_key_fields t) orig (content dc) →
    ∃ dc', l' !! i = Some (Some dc') ∧ d_artifacts dc' = d_artifacts dc ∧
           agrees_on (natural_key_fields t) orig (content dc') ∧
           (content dc' = content dc ∨ content dc' ∈ results) ∧
           ((∃ r, r ∈ results ∧ agrees_on (natural_key_fields t) orig r) →
            content dc' ∈ results).
Proof.
  unfold apply_results.
  induction results as [|r1 results IH]; simpl; intros l l' dc Hr Hi Hty Hagree.
  - injection Hr as <-. exists dc. repeat split; auto.
    intros (r & Hin & _). by apply elem_of_nil in Hin.
  - destruct (forM _ l) as [l1|] eqn:H1; simpl in Hr; [|discriminate].
    destruct (forM_lookup _ _ _ _ _ H1 Hi) as (e1 & Hi1 & He1).
    apply (replace_if_same_unit_step t orig) in He1
      as (dc1 & -> & Hd1 & Hagree1 & Hc1 & Hfound1);
      [|apply Hty; by left|done].
    destruct (IH l1 l' dc1 Hr Hi1) as (dc' & Hi' & Hd' & Hagree' & Hc' & Hfound');
      [intros r Hin; apply Hty; by right|done|].
    exists dc'. split; [done|]. split; [congruence|]. split; [done|]. split.
    + destruct Hc' as [Hc'|Hc']; [|right; by right].
      rewrite Hc'. destruct Hc1 as [Hc1|Hc1]; [by left|].
      right. rewrite Hc1. by left.
    + intros (r & [->|Hin]%elem_of_cons & Hres).
      * destruct Hc' as [Hc'|Hc']; [|by right].
        rewrite Hc', (Hfound1 Hres). by left.
      * right. apply Hfound'. eauto.
Qed.

(** X7.  Deduplication.  In a batch of one content type with a natural key,
    an entry whose natural key is that of a row of the store leaves the
    resolved batch with a row of the store for content, of the same type and
    with the same natural key, and with the artifacts it had. *)
Theorem resolve_batch_finds_stored_unit t rows l shutdown l' log shutdown' i dc r :
  natural_key_fields t ≠ [] →
  batch_of_type t l →
  l !! i = Some (Some dc) →
  r ∈ rows → model_type r = t →
  agrees_on (natural_key_fields t) (content dc) r →
  resolve_batch natural_key_fields rows l shutdown = Ok (l', log, shutdown') →
  ∃ dc', l' !! i = Some (Some dc') ∧
         d_artifacts dc' = d_artifacts dc ∧
         content dc' ∈ rows ∧
         model_type (content dc') = t ∧
         agrees_on (natural_key_fields t) (content dc) (content dc').
Proof.
  intros Hne Hty Hi Hr Hrt Hagree. unfold resolve_batch.
  destruct (build_content_q_by_type _ l shutdown []) as [[sd qs]|] eqn:Hb; simpl;
    [|discriminate].
  destruct (run_queries _ rows qs l []) as [[l1 log1]|] eqn:Hq; simpl; [|discriminate].
  intros [= <- <- <-].
  assert (Some dc ∈ l) as Hin by (apply list_elem_of_lookup; eauto).
  assert (model_type (content dc) = t) as Hdct.
  { unfold batch_of_type in Hty. rewrite Forall_forall in Hty.
    apply (Hty (Some dc) Hin). }
  apply build_content_q_by_type_spec in Hb as (Hnd & Hkeys & Hlook); [|constructor].
  destruct (single_key_dictionary t qs Hnd) as [q ->].
  { intros t' Ht'. apply Hkeys in Ht' as [Ht'|Ht']; [by apply elem_of_nil in Ht'|].
    by eapply batch_of_type_types. }
  { apply Hkeys. right. rewrite <- Hdct. by apply batch_types_elem_of. }
  specialize (Hlook t q). simpl in Hlook. rewrite decide_True in Hlook by done.
  specialize (Hlook eq_refl). simpl in Hlook.
  simpl in Hq.
  destruct (apply_results natural_key_fields (objects_filter rows t q) l)
    as [l2|] eqn:Ha; simpl in Hq; [|discriminate].
  injection Hq as <- _.
  assert (agrees_on (natural_key_fields t) (content dc) (content dc)) as Hself.
  { unfold agrees_on in *. rewrite Forall_forall in *. intros f Hf.
    by destruct (Hagree f Hf). }
  assert (r ∈ objects_filter rows t q) as Hrq.
  { apply objects_filter_elem_of. repeat split; try done. rewrite Hlook.
    destruct (forM_getattr_is_Ok (content dc) (natural_key_fields t)) as [k Hk].
    { unfold agrees_on in Hagree. eapply Forall_impl; [exact Hagree|].
      by intros f [? _]. }
    assert (natural_key_dict natural_key_fields (content dc) = Ok k) as Hk'.
    { unfold natural_key_dict. by rewrite Hdct. }
    apply fold_q_or_holds; [done|by apply unit_keys_of_type_nonempty|].
    right. exists (Q_kwargs k). split; [by eapply unit_keys_of_type_elem_of|].
    simpl. apply forallb_forall. intros [f v] Hfv.
    apply forM_getattr_Ok in Hk. rewrite Forall_forall in Hk.
    apply list_elem_of_In in Hfv. destruct (Hk _ Hfv) as [Hf Hv].
    apply bool_decide_eq_true. unfold agrees_on in Hagree.
    rewrite Forall_forall in Hagree. destruct (Hagree f Hf) as [_ ->]. done. }
  destruct (apply_results_track t (content dc) i _ _ _ dc Ha Hi)
    as (dc' & Hi' & Hd' & Hagree' & _ & Hfound); [|done|].
  { intros r' Hr'. by apply objects_filter_elem_of in Hr' as (_ & ? & _). }
  exists dc'. split; [done|]. split; [done|].
  assert (content dc' ∈ objects_filter rows t q) as Hrow by eauto.
  apply objects_filter_elem_of in Hrow as (? & ? & _). done.
Qed.

End ResolveMore.

(** ** The provenance of what the saver creates *)

Section ProvenanceMore.

Variable write_fails : Store → bool.

Lemma fold_stage_artifact_map c das bulk (m : gmap string remote_artifact_data) :
  fold_left (λ a da, stage_artifact c da a) das (bulk, m)
  = (bulk ++ map (new_content_artifact c) das,
     fold_left (λ m da, <[relative_path da := staged_data da]> m) das m).
Proof.
  revert bulk m. induction das as [|da das IH]; simpl; intros bulk m.
  - by rewrite app_nil_r.
  - rewrite IH, <- app_assoc. reflexivity.
Qed.

Lemma save_contents_map l :
  ∀ acc db acc' db',
    save_contents write_fails l acc db = (Ok acc', db') →
    st_remote_artifact_map acc'
    = fold_left (λ m da, <[relative_path da := staged_data da]> m)
        (new_artifacts l) (st_remote_artifact_map acc).
Proof.
  unfold new_artifacts.
  induction l as [|[dc|] l IH]; intros acc db acc' db'; simpl.
  - by intros [= <- <-].
  - destruct (adding (content dc)) eqn:Hadd.
    + destruct (save write_fails (content dc) db) as [[c|e] db1]; [|discriminate].
      rewrite fold_stage_artifact_map. intros H. apply IH in H. simpl in *.
      by rewrite fold_left_app.
    + intros H. by apply IH in H.
  - intros H. by apply IH in H.
Qed.

Lemma staged_lookup_other das :
  ∀ (m : gmap string remote_artifact_data) p,
    p ∉ map relative_path das →
    fold_left (λ m da, <[relative_path da := staged_data da]> m) das m !! p
    = m !! p.
Proof.
  induction das as [|da das IH]; simpl; intros m p Hp; [done|].
  rewrite IH.
  - apply lookup_insert_ne. intros Heq. apply Hp. rewrite <- Heq. by left.
  - intros Hin. apply Hp. by right.
Qed.

Lemma staged_lookup das :
  ∀ (m : gmap string remote_artifact_data) da,
    NoDup (map relative_path das) → da ∈ das →
    fold_left (λ m da, <[relative_path da := staged_data da]> m) das m
      !! relative_path da
    = Some (staged_data da).
Proof.
  induction das as [|da0 das IH]; simpl; intros m da Hnd Hin.
  - by apply elem_of_nil in Hin.
  - apply NoDup_cons in Hnd as [Hnotin Hnd].
    apply elem_of_cons in Hin as [->|Hin]; [|by apply IH].
    rewrite staged_lookup_other by done. apply lookup_insert_eq.
Qed.

Lemma pair_remote_artifacts_data rows :
  ∀ m bulk ras,
    pair_remote_artifacts rows m bulk = Ok ras →
    ∃ ras', ras = bulk ++ ras' ∧
            Forall2 (λ row ra, ra_content_artifact ra = row ∧
                               m !! ca_relative_path row = Some (ra_data ra))
              rows ras'.
Proof.
  induction rows as [|ca rows IH]; simpl; intros m bulk ras.
  - intros [= <-]. exists []. rewrite app_nil_r. split; [done|constructor].
  - destruct (m !! ca_relative_path ca) as [data|] eqn:Hm; [|discriminate].
    intros H. apply IH in H as (ras' & -> & Hf).
    exists ({| ra_content_artifact := ca; ra_data := data |} :: ras').
    split; [by rewrite <- app_assoc|]. constructor; [done|].
    eapply Forall2_impl; [exact Hf|]. intros row ra [? Hl]. split; [done|].
    by apply lookup_delete_Some in Hl as [_ ?].
Qed.

Lemma needed_content_artifacts_aligned units :
  ∀ cs, length cs = length units →
    Forall2 (λ da ca, ca_relative_path ca = relative_path da ∧
                      ca_artifact ca = artifact da)
      (concat (map d_artifacts units)) (needed_content_artifacts units cs).
Proof.
  induction units as [|dc units IH]; intros [|c cs]; simpl; intros Hlen;
    try discriminate.
  - constructor.
  - injection Hlen as Hlen. apply Forall2_app; [|by apply IH].
    induction (d_artifacts dc); simpl; constructor; auto.
Qed.

Lemma provenance_aligned (m : gmap string remote_artifact_data) das :
  ∀ cas rows ras,
    Forall2 (λ da ca, ca_relative_path ca = relative_path da ∧
                      ca_artifact ca = artifact da) das cas →
    Forall2 inserted_as cas rows →
    Forall2 (λ row ra, ra_content_artifact ra = row ∧
                       m !! ca_relative_path row = Some (ra_data ra)) rows ras →
    (∀ da, da ∈ das → m !! relative_path da = Some (staged_data da)) →
    Forall2 provenance_of das ras.
Proof.
  induction das as [|da das IH]; intros cas rows ras H1 H2 H3 Hm.
  - inversion H1; subst. inversion H2; subst. inversion H3; subst. constructor.
  - inversion H1 as [|? ca ? cas' [Hp Ha] H1']; subst.
    inversion H2 as [|? row ? rows' (_ & Ha' & Hp' & _) H2']; subst.
    inversion H3 as [|? ra ? ras' [Hr Hl] H3']; subst.
    constructor.
    + unfold provenance_of. rewrite Hp', Hp in Hl.
      rewrite (Hm da) in Hl by (by left). injection Hl as <-.
      repeat split; congruence.
    + eapply IH; eauto. intros da' Hin. apply Hm. by right.
Qed.

(** X8.  When a batch is saved, the RemoteArtifact rows it adds are, in
    order, the provenance of the DeclarativeArtifacts of its new units: each
    row holds the url, size, digests and remote of its own DeclarativeArtifact
    and hangs on a ContentArtifact with that artifact and relative path. *)
Theorem save_batch_records_provenance l shutdown db l' shutdown' db' :
  save_batch write_fails l shutdown db = (Ok (l', shutdown'), db') →
  ∃ ras, remote_artifacts db' = remote_artifacts db ++ ras ∧
         Forall2 provenance_of (new_artifacts l) ras.
Proof.
  intros Hsave.
  pose proof (save_batch_ok_distinct_paths _ _ _ _ _ _ _ Hsave) as Hnd.
  revert Hsave. unfold save_batch, atomic, save_batch_body.
  destruct (save_contents _ l _ db) as [[acc|e] db1] eqn:H1; [|discriminate].
  destruct (ContentArtifact_bulk_create _ _ db1) as [[rows|e] db2] eqn:H2;
    [|discriminate].
  destruct (pair_remote_artifacts rows _ []) as [ras|e] eqn:H3; [|discriminate].
  destruct (RemoteArtifact_bulk_create _ ras db2) as [[u|e] db3] eqn:H4;
    [|discriminate].
  intros [= <- <- <-].
  pose proof (save_contents_map _ _ _ _ _ H1) as Hmap. simpl in Hmap.
  apply save_contents_spec in H1
    as (cs & l1 & Hc & Hca & Hra & Hf & Hb & Hl & Hsame & Hsd).
  apply ContentArtifact_bulk_create_ok in H2 as (Hins & Hc2 & Hca2 & Hra2).
  apply pair_remote_artifacts_data in H3 as (ras' & -> & Hpairs).
  apply RemoteArtifact_bulk_create_ok in H4 as (Hc3 & Hca3 & Hra3).
  simpl in *. rewrite Hb in Hins.
  exists ras'. split; [congruence|].
  eapply (provenance_aligned (st_remote_artifact_map acc)); [|exact Hins|exact Hpairs|].
  - apply needed_content_artifacts_aligned.
    apply Forall2_length in Hf. by rewrite length_map in Hf.
  - intros da Hda. rewrite Hmap. by apply staged_lookup.
Qed.

End ProvenanceMore.

(** ** The saver as a stage *)

Section SaverStageMore.

Variable write_fails : Store → bool.

Lemma all_saved_without_sentinels l : all_saved l → all_saved (without_sentinels l).
Proof.
  unfold all_saved, without_sentinels.
  induction 1 as [|[dc|] l He _ IH]; simpl; [constructor|by constructor|done].
Qed.

Lemma save_batch_store_grows l shutdown db r db' :
  save_batch write_fails l shutdown db = (r, db') →
  contents db `prefix_of` contents db' ∧
  content_artifacts db `prefix_of` content_artifacts db' ∧
  remote_artifacts db `prefix_of` remote_artifacts db'.
Proof.
  unfold save_batch, atomic.
  destruct (save_batch_body _ l shutdown db) as [[[l1 sd1]|e] db1] eqn:Hb.
  - intros [= <- <-].
    apply save_batch_body_spec in Hb
      as ((cs & cas & ras & -> & -> & -> & _) & _).
    repeat split; by apply prefix_app_r.
  - by intros [= <- <-].
Qed.

Lemma saver_loop_invariants fuel :
  ∀ sched in_q db out,
    all_saved out →
    let r := saver_loop write_fails fuel sched in_q db out in
    all_saved (out_q r) ∧
    contents db `prefix_of` contents (store r) ∧
    content_artifacts db `prefix_of` content_artifacts (store r) ∧
    remote_artifacts db `prefix_of` remote_artifacts (store r).
Proof.
  induction fuel as [|fuel IH]; intros sched in_q db out Hout; simpl; [done|].
  destruct in_q as [|e in_q]; [done|].
  destruct (drain sched (e :: in_q)) as [[b rest] sched'].
  destruct (save_batch write_fails b false db) as [[[l shutdown]|ex] db1] eqn:Hs.
  - pose proof (save_batch_store_grows _ _ _ _ _ Hs) as (Hc & Hca & Hra).
    apply save_batch_all_saved in Hs.
    assert (all_saved (out ++ without_sentinels l)) as Hout'.
    { apply Forall_app. split; [done|]. by apply all_saved_without_sentinels. }
    destruct shutdown; simpl.
    + repeat split; try done. apply Forall_app. split; [done|].
      by repeat constructor.
    + destruct (IH sched' rest db1 _ Hout') as (H1 & H2 & H3 & H4).
      repeat split; [done|by etrans..].
  - pose proof (save_batch_store_grows _ _ _ _ _ Hs) as (Hc & Hca & Hra).
    simpl. done.
Qed.

(** X9.  content_unit_saver on items followed by one sentinel: unless an
    exception ends it, it terminates having put every item once, in their
    order and with their artifacts, and then exactly one sentinel, whatever
    the batches the schedule cuts the input into. *)
Theorem content_unit_saver_puts_one_sentinel sched
    (items : list DeclarativeContent) db :
  let r := content_unit_saver write_fails sched (map Some items ++ [None]) db in
  (ended r = Terminated ∧
   ∃ items', Forall2 same_dc items items' ∧
             out_q r = map Some items' ++ [None])
  ∨ (∃ e, ended r = Crashed e).
Proof.
  unfold content_unit_saver.
  apply (saver_loop_items_sentinel write_fails
           (S (length (map Some items ++ [None]))) sched items db []).
  rewrite length_app, length_map. simpl. lia.
Qed.

(** X10.  Whatever content_unit_saver has put on its output queue is saved:
    no DeclarativeContent leaves the stage with a content that is still to be
    created, for any input, schedule, store and way the stage ends. *)
Theorem content_unit_saver_forwards_saved_contents sched in_q db :
  all_saved (out_q (content_unit_saver write_fails sched in_q db)).
Proof.
  unfold content_unit_saver.
  destruct (saver_loop_invariants (S (length in_q)) sched in_q db [])
    as [H _]; [constructor|exact H].
Qed.

(** X11.  content_unit_saver only adds rows: the Content, ContentArtifact and
    RemoteArtifact rows of the store it started with are there, unchanged and
    in front, in the store it leaves. *)
Theorem content_unit_saver_only_appends sched in_q db :
  let r := content_unit_saver write_fails sched in_q db in
  contents db `prefix_of` contents (store r) ∧
  content_artifacts db `prefix_of` content_artifacts (store r) ∧
  remote_artifacts db `prefix_of` remote_artifacts (store r).
Proof.
  unfold content_unit_saver.
  destruct (saver_loop_invariants (S (length in_q)) sched in_q db [])
    as [_ H]; [constructor|exact H].
Qed.

End SaverStageMore.

(** ** The extras at concrete batches *)

Lemma save_batch_of_saved_units_is_noop_witness :
  save_batch always_fails [Some (set_content file_foo file_row); None] false
    store_with_file
  = (Ok ([Some (set_content file_foo file_row); None], true), store_with_file).
Proof.
  apply (save_batch_of_saved_units_is_noop always_fails
           [Some (set_content file_foo file_row); None] false store_with_file).
  repeat constructor.
Defined.

Lemma save_batch_twice_witness :
  save_batch always_fails batch_after_one_and_three true store_after_one_and_three
  = (Ok (batch_after_one_and_three,
         true || existsb is_sentinel batch_after_one_and_three),
     store_after_one_and_three).
Proof.
  apply (save_batch_twice never_fails always_fails
           [Some unit_one; Some unit_three] false empty_store
           batch_after_one_and_three false store_after_one_and_three true).
  vm_compute. reflexivity.
Defined.

Lemma resolve_batch_keeps_or_takes_a_row_witness :
  Forall2 (kept_or_row [file_row]) [Some file_foo; None]
    [Some (set_content file_foo file_row); None].
Proof.
  apply (resolve_batch_keeps_or_takes_a_row example_registry [file_row]
           [Some file_foo; None] false
           [Some (set_content file_foo file_row); None]
           [("file", Q_or Q_pk_None (Q_kwargs [("name", "foo")]))] true).
  vm_compute. reflexivity.
Defined.

Lemma resolve_batch_empty_store_witness :
  [Some file_foo; Some package_foo; None]
  = [Some file_foo; Some package_foo; None].
Proof.
  apply (resolve_batch_empty_store example_registry
           [Some file_foo; Some package_foo; None] false
           [Some file_foo; Some package_foo; None]
           [("file", Q_or Q_pk_None (Q_kwargs [("name", "foo")]));
            ("package",
             Q_or Q_pk_None (Q_kwargs [("name", "foo"); ("version", "1")]))]
           true).
  vm_compute. reflexivity.
Defined.

Lemma resolve_batch_finds_stored_unit_witness :
  ∃ dc', [Some (set_content file_foo file_row); None] !! 0 = Some (Some dc') ∧
         d_artifacts dc' = d_artifacts file_foo ∧
         content dc' ∈ [file_row] ∧
         model_type (content dc') = "file" ∧
         agrees_on (example_registry "file") (content file_foo) (content dc').
Proof.
  apply (resolve_batch_finds_stored_unit example_registry "file" [file_row]
           [Some file_foo; None] false
           [Some (set_content file_foo file_row); None]
           [("file", Q_or Q_pk_None (Q_kwargs [("name", "foo")]))] true
           0 file_foo file_row).
  - discriminate.
  - repeat constructor.
  - reflexivity.
  - by left.
  - reflexivity.
  - repeat constructor. by eexists.
  - vm_compute. reflexivity.
Defined.

Lemma save_batch_records_provenance_witness :
  ∃ ras, remote_artifacts store_after_one_and_three
         = remote_artifacts empty_store ++ ras ∧
         Forall2 provenance_of (new_artifacts [Some unit_one; Some unit_three]) ras.
Proof.
  apply (save_batch_records_provenance never_fails
           [Some unit_one; Some unit_three] false empty_store
           batch_after_one_and_three false).
  vm_compute. reflexivity.
Defined.

End StagesMore.

(** * More facts about the tasks *)

Module TasksMore.
Import Tasks TasksFacts.

(** ** delete_version *)

Lemma get_version_Raise pk d e :
  get_version pk d = Raise e →
  e = DoesNotExist ∧ ∀ v, v ∈ version_table d → version_pk v ≠ pk.
Proof.
  unfold get_version.
  destruct (List.find _ _) as [v|] eqn:Hf; [discriminate|].
  intros [= <-]. split; [done|]. intros v Hin.
  apply list_elem_of_In in Hin.
  pose proof (find_none _ _ Hf v Hin) as Hn. simpl in Hn.
  by apply bool_decide_eq_false in Hn.
Qed.

(** X12.  delete_version may be retried: once it has returned, calling it
    again with the same key finds no version, logs that there is nothing to
    do and leaves the database as the first call left it. *)
Theorem delete_version_retry pk w w' :
  delete_version pk w = (Ok (), w') →
  delete_version pk w' = (Ok (), emit Info_version_not_found w').
Proof.
  intros H.
  assert (∀ v, v ∈ version_table (db w') → version_pk v ≠ pk) as Habsent.
  { revert H. unfold delete_version, delete_version_with, atomic_db,
      delete_version_body_with, version_delete_removes_row.
    destruct (get_version pk (db w)) as [version|e] eqn:Hv.
    - destruct (bool_decide (complete_count _ _ ≤ 1)); [discriminate|].
      cbn zeta. intros [= <-]. simpl. intros v Hin.
      apply list_elem_of_In, filter_In in Hin as [_ Hpk].
      apply negb_true_iff, bool_decide_eq_false in Hpk.
      apply get_version_Ok in Hv as [_ Hv]. congruence.
    - intros [= <-]. simpl. by apply get_version_Raise in Hv as [_ ?]. }
  unfold delete_version, delete_version_with, atomic_db,
      delete_version_body_with, version_delete_removes_row.
  by rewrite (get_version_absent pk (db w') Habsent).
Qed.

Lemma filter_other_pk (pk : string) (tbl : list RepositoryVersion) :
  pk ∉ map version_pk tbl →
  List.filter (λ v, negb (bool_decide (version_pk v = pk))) tbl = tbl.
Proof.
  induction tbl as [|x tbl IH]; simpl; intros Hpk; [done|].
  rewrite bool_decide_eq_false_2.
  - simpl. f_equal. apply IH. intros Hin. apply Hpk. by right.
  - intros Heq. apply Hpk. rewrite <- Heq. by left.
Qed.

(** Deleting a version of a table with unique keys removes that row only. *)
Lemma complete_count_delete repo version d :
  NoDup (map version_pk (version_table d)) →
  version ∈ version_table d →
  complete_count repo (RepositoryVersion_delete version d)
  + (if bool_decide (repository version = repo) && complete version then 1 else 0)
  = complete_count repo d.
Proof.
  unfold complete_count, RepositoryVersion_delete. simpl.
  induction (version_table d) as [|x tbl IH]; simpl; intros Hnd Hin.
  - by apply elem_of_nil in Hin.
  - apply NoDup_cons in Hnd as [Hx Hnd].
    apply elem_of_cons in Hin as [->|Hin].
    + rewrite bool_decide_eq_true_2 by done. simpl.
      rewrite filter_other_pk by done.
      destruct (bool_decide (repository x = repo) && complete x); simpl; lia.
    + rewrite bool_decide_eq_false_2; simpl.
      * destruct (bool_decide (repository x = repo) && complete x); simpl;
          rewrite <- IH by done; lia.
      * intros Heq. apply Hx. rewrite Heq.
        apply list_elem_of_fmap. by exists version.
Qed.

(** X13.  delete_version keeps every repository with a complete version:
    when the keys of the versions are unique, a repository that has a
    complete version before the call has one after it, however the call
    ends. *)
Theorem delete_version_keeps_a_complete_version pk w r w' repo :
  NoDup (map version_pk (version_table (db w))) →
  1 ≤ complete_count repo (db w) →
  delete_version pk w = (r, w') →
  1 ≤ complete_count repo (db w').
Proof.
  intros Hnd Hone. unfold delete_version, delete_version_with, atomic_db,
      delete_version_body_with, version_delete_removes_row.
  destruct (get_version pk (db w)) as [version|e] eqn:Hv.
  - destruct (bool_decide _) eqn:Hle.
    + by intros [= <- <-].
    + intros [= <- <-]. simpl. apply bool_decide_eq_false in Hle.
      apply get_version_Ok in Hv as [Hin _].
      pose proof (complete_count_delete repo version (db w) Hnd Hin) as Hc.
      destruct (bool_decide (repository version = repo)) eqn:Hrepo; simpl in Hc.
      * apply bool_decide_eq_true in Hrepo. subst repo.
        destruct (complete version); lia.
      * lia.
  - by intros [= <- <-].
Qed.

Lemma delete_version_retry_witness :
  delete_version "v1"
    (snd (delete_version "v1" (world_of (db_of three_versions))))
  = (Ok (), emit Info_version_not_found
              (snd (delete_version "v1" (world_of (db_of three_versions))))).
Proof.
  apply (delete_version_retry "v1" (world_of (db_of three_versions))).
  vm_compute. reflexivity.
Defined.

Lemma delete_version_keeps_a_complete_version_witness :
  1 ≤ complete_count "repo"
        (db (snd (delete_version "v2" (world_of (db_of three_versions))))).
Proof.
  apply (delete_version_keeps_a_complete_version "v2"
           (world_of (db_of three_versions))
           (fst (delete_version "v2" (world_of (db_of three_versions))))
           _ "repo").
  - apply (bool_decide_unpack _). vm_compute. exact I.
  - vm_compute. lia.
  - vm_compute. reflexivity.
Defined.

(** ** The repair engine *)

Section RepairMore.

Variable sha256_hexdigest : list Byte.byte → string.
Variable downloader_run : RemoteArtifact → option (list Byte.byte * string).

Lemma same_but_file_refl a w : same_but_file a w w.
Proof. by repeat split. Qed.

Lemma same_but_file_trans a w1 w2 w3 :
  same_but_file a w1 w2 → same_but_file a w2 w3 → same_but_file a w1 w3.
Proof.
  intros (H1 & H2 & H3 & H4 & H5) (H1' & H2' & H3' & H4' & H5').
  repeat split; try congruence. intros f Hf. by rewrite H5', H5.
Qed.

(** The loop of _repair_ca: what it leaves alone and what becomes of the
    file. *)
Lemma repair_from_result a with_report remote_artifacts :
  ∀ w r w',
    repair_from downloader_run a with_report remote_artifacts w = (r, w') →
    same_but_file a w w' ∧
    (if r then
       ∃ ra src, ra ∈ remote_artifacts ∧
                 downloader_run ra = Some (src, sha256 a) ∧
                 storage w' !! file_name a = Some src
     else storage w' !! file_name a = None ∧ progress w' = progress w).
Proof.
  induction remote_artifacts as [|ra ras IH]; simpl; intros w r w'.
  - intros [= <- <-]. split.
    + repeat split. intros f Hf. world_simpl. by apply lookup_delete_ne.
    + world_simpl. split; [apply lookup_delete_eq|done].
  - destruct (downloader_run ra) as [[src digest]|] eqn:Hdl.
    + destruct (decide (digest = sha256 a)) as [->|Hne].
      * intros [= <- <-]. split.
        -- destruct with_report; repeat split; intros f Hf; world_simpl;
             by rewrite lookup_insert_ne, lookup_delete_ne.
        -- exists ra, src. split; [by left|]. split; [done|].
           destruct with_report; world_simpl; apply lookup_insert_eq.
      * intros H. apply IH in H as [Hsame Hr]. split.
        -- eapply same_but_file_trans; [|exact Hsame]. by repeat split.
        -- destruct r; [|done].
           destruct Hr as (ra' & src' & ? & ? & ?). exists ra', src'.
           split; [by right|done].
    + intros H. apply IH in H as [Hsame Hr]. split.
      * eapply same_but_file_trans; [|exact Hsame]. by repeat split.
      * destruct r; [|done].
        destruct Hr as (ra' & src' & ? & ? & ?). exists ra', src'.
        split; [by right|done].
Qed.

Lemma _repair_ca_result content_artifact a with_report w r w' :
  ca_artifact content_artifact = Some a →
  _repair_ca downloader_run content_artifact with_report w = (r, w') →
  same_but_file a w w' ∧
  ((r = Ok true ∧ ∃ ra src, downloader_run ra = Some (src, sha256 a) ∧
                            storage w' !! file_name a = Some src)
   ∨ (r = Ok false ∧ storage w' !! file_name a = None
      ∧ progress w' = progress w)).
Proof.
  intros Ha. unfold _repair_ca. rewrite Ha.
  destruct (remoteartifact_set content_artifact (db w)) as [|ra ras].
  - intros [= <- <-]. split.
    + repeat split. intros f Hf. world_simpl. by apply lookup_delete_ne.
    + right. split; [done|]. world_simpl. split; [apply lookup_delete_eq|done].
  - destruct (repair_from downloader_run a with_report (ra :: ras) w)
      as [b w1] eqn:Hr.
    intros [= <- <-]. apply repair_from_result in Hr as [Hsame Hr].
    split; [done|]. destruct b.
    + left. split; [done|]. destruct Hr as (ra' & src & _ & ? & ?). eauto.
    + right. by split.
Qed.

(** X14.  _repair_ca works on the file of its artifact and on nothing else:
    the database, every other file and the counts of missing and corrupted
    units are what they were, however the repair ends. *)
Theorem repair_ca_touches_its_file_only content_artifact a with_report w r w' :
  ca_artifact content_artifact = Some a →
  _repair_ca downloader_run content_artifact with_report w = (r, w') →
  db w' = db w ∧
  missing (progress w') = missing (progress w) ∧
  corrupted (progress w') = corrupted (progress w) ∧
  ∀ f, f ≠ file_name a → storage w' !! f = storage w !! f.
Proof.
  intros Ha Hr.
  destruct (_repair_ca_result _ _ _ _ _ _ Ha Hr) as ((? & ? & ? & ? & ?) & _).
  done.
Qed.

(** X15.  Repair and verification agree.  With downloads that report the
    digest of what they deliver, and an artifact of the current domain, a
    repair that returns True leaves a file that _verify_artifact accepts; a
    repair that returns False leaves no file under the name of the
    artifact. *)
Theorem verify_after_repair content_artifact a with_report w b w' :
  honest sha256_hexdigest downloader_run →
  ca_artifact content_artifact = Some a →
  domain w = pulp_domain_id a →
  _repair_ca downloader_run content_artifact with_report w = (Ok b, w') →
  (b = true → _verify_artifact sha256_hexdigest a w' = Ok true)
  ∧ (b = false → storage_exists (file_name a) w' = false).
Proof.
  intros Hhonest Ha Hdom Hr.
  destruct (_repair_ca_result _ _ _ _ _ _ Ha Hr)
    as ((_ & Hd & _) & [[[= ->] (ra & src & Hdl & Hs)]|[[= ->] [Hs _]]]).
  - split; [|discriminate]. intros _.
    unfold _verify_artifact. rewrite Hd, Hdom, decide_True, Hs by done.
    apply Hhonest in Hdl. by rewrite bool_decide_eq_true_2.
  - split; [discriminate|]. intros _.
    unfold storage_exists. rewrite Hs. apply bool_decide_eq_false.
    by intros [? ?].
Qed.

(** *** The scan *)

(** What the handling of one ContentArtifact leaves alone. *)
Lemma scan_one_frame verify_checksums content_artifact a w r w' :
  ca_artifact content_artifact = Some a →
  scan_one sha256_hexdigest downloader_run verify_checksums content_artifact w
    = (r, w') →
  db w' = db w ∧ domain w' = domain w ∧
  ∀ f, f ≠ file_name a → storage w' !! f = storage w !! f.
Proof.
  intros Ha. unfold scan_one. rewrite Ha.
  destruct (storage_exists (file_name a) w); simpl.
  - destruct verify_checksums; [|by intros [= <- <-]].
    destruct (_verify_artifact sha256_hexdigest a w) as [[|]|e];
      [by intros [= <- <-]| |by intros [= <- <-]].
    destruct (_repair_ca _ _ _ _) as [[b|e] w1] eqn:Hr; intros [= <- <-];
      destruct (_repair_ca_result _ _ _ _ _ _ Ha Hr) as ((? & ? & _ & _ & ?) & _);
      by repeat split.
  - destruct (_repair_ca _ _ _ _) as [[b|e] w1] eqn:Hr; intros [= <- <-];
      destruct (_repair_ca_result _ _ _ _ _ _ Ha Hr) as ((? & ? & _ & _ & ?) & _);
      by repeat split.
Qed.

Lemma scan_healthy verify_checksums l w :
  Forall (λ ca, ∃ a, ca_artifact ca = Some a ∧
                     is_Some (storage w !! file_name a) ∧
                     (verify_checksums = true →
                      _verify_artifact sha256_hexdigest a w = Ok true)) l →
  scan sha256_hexdigest downloader_run verify_checksums l w = (Ok (), w).
Proof.
  induction 1 as [|ca l (a & Ha & Hs & Hv) _ IH]; simpl; [done|].
  unfold scan_one. rewrite Ha. unfold storage_exists.
  rewrite bool_decide_eq_true_2 by done. simpl.
  destruct verify_checksums; [|done]. by rewrite Hv.
Qed.

(** X16.  A repair of healthy files is a no-op: when the file of every
    ContentArtifact in scope is in storage and, if checksums are verified,
    verifies, _repair_artifacts_for_content returns with the world as it was
    (no download, no count, no log line). *)
Theorem repair_of_healthy_files_is_noop subset verify_checksums w :
  Forall (λ ca, ∃ a, ca_artifact ca = Some a ∧
                     is_Some (storage w !! file_name a) ∧
                     (verify_checksums = true →
                      _verify_artifact sha256_hexdigest a w = Ok true))
    (scan_query_set subset w) →
  _repair_artifacts_for_content sha256_hexdigest downloader_run subset
    verify_checksums w = (Ok (), w).
Proof. apply scan_healthy. Qed.

Lemma scan_one_unverified content_artifact w r w' :
  scan_one sha256_hexdigest downloader_run false content_artifact w = (r, w') →
  db w' = db w ∧ domain w' = domain w ∧
  corrupted (progress w') = corrupted (progress w) ∧
  ∀ f data, storage w !! f = Some data → storage w' !! f = Some data.
Proof.
  unfold scan_one. destruct (ca_artifact content_artifact) as [a|] eqn:Ha;
    [|by intros [= <- <-]].
  destruct (storage_exists (file_name a) w) eqn:Hex; simpl;
    [by intros [= <- <-]|].
  destruct (_repair_ca _ _ _ _) as [r1 w1] eqn:Hr.
  intros Hres.
  assert (w' = w1) as -> by (destruct r1; by injection Hres).
  destruct (_repair_ca_result _ _ _ _ _ _ Ha Hr) as ((Hd & Hdom & _ & Hc & Hf) & _).
  repeat split; try done. intros f data Hfd. rewrite Hf; [done|].
  intros ->. unfold storage_exists in Hex.
  apply bool_decide_eq_false in Hex. apply Hex. eauto.
Qed.

Lemma scan_unverified l :
  ∀ w r w',
    scan sha256_hexdigest downloader_run false l w = (r, w') →
    corrupted (progress w') = corrupted (progress w) ∧
    ∀ f data, storage w !! f = Some data → storage w' !! f = Some data.
Proof.
  induction l as [|ca l IH]; simpl; intros w r w'.
  - by intros [= <- <-].
  - destruct (scan_one _ _ false ca w) as [[u|e] w1] eqn:H1.
    + apply scan_one_unverified in H1 as (_ & _ & Hc & Hf).
      intros H. apply IH in H as [Hc' Hf']. split; [congruence|auto].
    + apply scan_one_unverified in H1 as (_ & _ & Hc & Hf).
      by intros [= <- <-].
Qed.

(** X17.  Without checksum verification a repair counts no unit as corrupted
    and leaves every file that is in storage as it is: it only deals with
    files that are missing. *)
Theorem repair_without_checksums_keeps_files subset w r w' :
  _repair_artifacts_for_content sha256_hexdigest downloader_run subset false w
    = (r, w') →
  corrupted (progress w') = corrupted (progress w) ∧
  ∀ f data, storage w !! f = Some data → storage w' !! f = Some data.
Proof. apply scan_unverified. Qed.

Lemma repair_sound content_artifact a w b w' :
  honest sha256_hexdigest downloader_run →
  ca_artifact content_artifact = Some a →
  _repair_ca downloader_run content_artifact true w = (Ok b, w') →
  sound sha256_hexdigest a w'.
Proof.
  intros Hhonest Ha Hr. unfold sound.
  destruct (_repair_ca_result _ _ _ _ _ _ Ha Hr)
    as (_ & [[_ (ra & src & Hdl & ->)]|[_ [-> _]]]); [|done].
  apply Hhonest in Hdl. done.
Qed.

Lemma scan_one_sound content_artifact a w u w' :
  honest sha256_hexdigest downloader_run →
  ca_artifact content_artifact = Some a →
  scan_one sha256_hexdigest downloader_run true content_artifact w = (Ok u, w') →
  sound sha256_hexdigest a w'.
Proof.
  intros Hhonest Ha. unfold scan_one. rewrite Ha.
  destruct (storage_exists (file_name a) w); simpl.
  - unfold _verify_artifact.
    destruct (decide (domain w = pulp_domain_id a)) as [Hdom|Hdom];
      [|discriminate].
    destruct (storage w !! file_name a) as [data|] eqn:Hs.
    + destruct (bool_decide (sha256_hexdigest data = sha256 a)) eqn:Hd.
      * intros [= _ <-]. unfold sound. rewrite Hs.
        by apply bool_decide_eq_true in Hd.
      * destruct (_repair_ca _ _ _ _) as [[b|e] w1] eqn:Hr; [|discriminate].
        intros [= _ <-]. by eapply repair_sound.
    + destruct (_repair_ca _ _ _ _) as [[b|e] w1] eqn:Hr; [|discriminate].
      intros [= _ <-]. by eapply repair_sound.
  - destruct (_repair_ca _ _ _ _) as [[b|e] w1] eqn:Hr; [|discriminate].
    intros [= _ <-]. by eapply repair_sound.
Qed.

Lemma scan_keeps_sound a l :
  ∀ w u w',
    honest sha256_hexdigest downloader_run →
    (∀ ca a', ca ∈ l → ca_artifact ca = Some a' →
              file_name a' = file_name a → sha256 a' = sha256 a) →
    Forall (λ ca, is_Some (ca_artifact ca)) l →
    sound sha256_hexdigest a w →
    scan sha256_hexdigest downloader_run true l w = (Ok u, w') →
    sound sha256_hexdigest a w'.
Proof.
  induction l as [|ca l IH]; simpl; intros w u w' Hhonest Haddr Hart Hsound.
  - by intros [= _ <-].
  - apply Forall_cons in Hart as [[a' Ha'] Hart].
    destruct (scan_one _ _ true ca w) as [[u1|e] w1] eqn:H1; [|discriminate].
    apply IH; try done.
    { intros ca0 a0 Hin. apply Haddr. by right. }
    destruct (decide (file_name a' = file_name a)) as [Heq|Hne].
    + pose proof (scan_one_sound _ _ _ _ _ Hhonest Ha' H1) as Hs.
      unfold sound in *. rewrite <- Heq.
      rewrite <- (Haddr ca a' ltac:(by left) Ha' Heq). exact Hs.
    + apply (scan_one_frame _ _ _ _ _ _ Ha') in H1 as (_ & _ & Hf).
      unfold sound in *. rewrite Hf by done. exact Hsound.
Qed.

Lemma scan_sound l :
  ∀ w u w',
    honest sha256_hexdigest downloader_run →
    content_addressed l →
    Forall (λ ca, is_Some (ca_artifact ca)) l →
    scan sha256_hexdigest downloader_run true l w = (Ok u, w') →
    ∀ ca a, ca ∈ l → ca_artifact ca = Some a → sound sha256_hexdigest a w'.
Proof.
  induction l as [|ca0 l IH]; simpl; intros w u w' Hhonest Haddr Hart.
  - intros _ ca a Hin. by apply elem_of_nil in Hin.
  - pose proof Hart as Hart0. apply Forall_cons in Hart as [_ Hart].
    destruct (scan_one _ _ true ca0 w) as [[u1|e] w1] eqn:H1; [|discriminate].
    intros Hscan ca a [->|Hin]%elem_of_cons Ha.
    + eapply (scan_keeps_sound a l w1); try done.
      * intros ca' a' Hin' Ha' Heq.
        apply (Haddr ca' ca0 a' a); [by right|by left|done..].
      * by eapply scan_one_sound.
    + eapply (IH w1 u w'); try done.
      intros ca1 ca2 a1 a2 Hin1 Hin2. apply Haddr; by right.
Qed.

(** X18.  What a repair with checksum verification leaves behind.  With
    downloads that report the digest of what they deliver and files stored by
    their digest, when _repair_artifacts_for_content returns, the file of every
    ContentArtifact in scope is either gone or has the sha256 recorded for its
    artifact. *)
Theorem repair_leaves_sound_files subset w u w' :
  honest sha256_hexdigest downloader_run →
  content_addressed (scan_query_set subset w) →
  _repair_artifacts_for_content sha256_hexdigest downloader_run subset true w
    = (Ok u, w') →
  ∀ ca a, ca ∈ scan_query_set subset w → ca_artifact ca = Some a →
          sound sha256_hexdigest a w'.
Proof.
  intros Hhonest Haddr Hscan. eapply scan_sound; try done.
  apply Forall_forall. intros ca Hin. unfold scan_query_set in Hin.
  apply list_elem_of_In, filter_In in Hin as [Hin _].
  apply filter_In in Hin as [_ Hart]. apply bool_decide_eq_true in Hart.
  by destruct (ca_artifact ca).
Qed.

End RepairMore.

Lemma repair_ca_touches_its_file_only_witness :
  storage (snd (_repair_ca toy_downloader ca_g true (repair_world three_versions)))
    !! "artifact/f"
  = storage (repair_world three_versions) !! "artifact/f".
Proof.
  apply (repair_ca_touches_its_file_only toy_downloader ca_g artifact_g true
           (repair_world three_versions)
           (fst (_repair_ca toy_downloader ca_g true (repair_world three_versions)))
           _ eq_refl).
  - reflexivity.
  - discriminate.
Defined.

Lemma verify_after_repair_witness :
  _verify_artifact toy_sha256 artifact_f
    (snd (_repair_ca toy_downloader ca_f true (repair_world three_versions)))
  = Ok true
  ∧ storage_exists (file_name artifact_g)
      (snd (_repair_ca toy_downloader ca_g true (repair_world three_versions)))
    = false.
Proof.
  assert (honest toy_sha256 toy_downloader) as Hhonest.
  { intros ra src digest. unfold toy_downloader.
    repeat case_decide; intros [= <- <-]; reflexivity. }
  split.
  - apply (proj1 (verify_after_repair toy_sha256 toy_downloader ca_f artifact_f
                    true (repair_world three_versions) true _ Hhonest eq_refl
                    eq_refl ltac:(vm_compute; reflexivity))).
    reflexivity.
  - apply (proj2 (verify_after_repair toy_sha256 toy_downloader ca_g artifact_g
                    true (repair_world three_versions) false _ Hhonest eq_refl
                    eq_refl ltac:(vm_compute; reflexivity))).
    reflexivity.
Defined.

Lemma repair_of_healthy_files_is_noop_witness :
  _repair_artifacts_for_content toy_sha256 toy_downloader None true healthy_world
  = (Ok (), healthy_world).
Proof.
  apply (repair_of_healthy_files_is_noop toy_sha256 toy_downloader None true
           healthy_world).
  change (scan_query_set None healthy_world) with [ca_f; ca_g].
  repeat constructor.
  - exists artifact_f. split; [reflexivity|]. split; [by eexists|].
    intros _. vm_compute. reflexivity.
  - exists artifact_g. split; [reflexivity|]. split; [by eexists|].
    intros _. vm_compute. reflexivity.
Defined.

Lemma repair_without_checksums_keeps_files_witness :
  corrupted (progress (snd (_repair_artifacts_for_content toy_sha256
                              toy_downloader None false
                              (repair_world three_versions))))
  = corrupted (progress (repair_world three_versions))
  ∧ ∀ f data,
      storage (repair_world three_versions) !! f = Some data →
      storage (snd (_repair_artifacts_for_content toy_sha256 toy_downloader
                      None false (repair_world three_versions))) !! f
      = Some data.
Proof.
  apply (repair_without_checksums_keeps_files toy_sha256 toy_downloader None
           (repair_world three_versions)
           (fst (_repair_artifacts_for_content toy_sha256 toy_downloader None
                   false (repair_world three_versions)))).
  by destruct (_repair_artifacts_for_content _ _ _ _ _).
Defined.

Lemma repair_leaves_sound_files_witness :
  sound toy_sha256 artifact_f
    (snd (_repair_artifacts_for_content toy_sha256 toy_downloader None true
            (repair_world three_versions))).
Proof.
  apply (repair_leaves_sound_files toy_sha256 toy_downloader None
           (repair_world three_versions) () _) with (ca := ca_f).
  - intros ra src digest. unfold toy_downloader.
    repeat case_decide; intros [= <- <-]; reflexivity.
  - change (scan_query_set None (repair_world three_versions)) with [ca_f; ca_g].
    intros ca1 ca2 a1 a2 H1 H2.
    apply elem_of_cons in H1 as [->|H1];
      [|apply list_elem_of_singleton in H1 as ->];
      (apply elem_of_cons in H2 as [->|H2];
       [|apply list_elem_of_singleton in H2 as ->]);
      intros [= <-] [= <-] _; reflexivity.
  - vm_compute. reflexivity.
  - change (scan_query_set None (repair_world three_versions)) with [ca_f; ca_g].
    by left.
  - reflexivity.
Defined.

(** ** add_and_remove *)

Lemma get_repository_Raise pk d e :
  get_repository pk d = Raise e →
  e = DoesNotExist ∧ ∀ r, r ∈ repository_table d → repository_pk r ≠ pk.
Proof.
  unfold get_repository.
  destruct (List.find _ _) as [r|] eqn:Hf; [discriminate|].
  intros [= <-]. split; [done|]. intros r Hin.
  apply list_elem_of_In in Hin.
  pose proof (find_none _ _ Hf r Hin) as Hn. simpl in Hn.
  by apply bool_decide_eq_false in Hn.
Qed.

Lemma get_repository_absent pk d :
  (∀ r, r ∈ repository_table d → repository_pk r ≠ pk) →
  get_repository pk d = Raise DoesNotExist.
Proof.
  intros H. destruct (get_repository pk d) as [repo|e] eqn:Hr.
  - unfold get_repository in Hr.
    destruct (List.find _ _) as [r|] eqn:Hf; [|discriminate].
    apply find_some in Hf as [Hin Hpk].
    apply bool_decide_eq_true in Hpk. apply list_elem_of_In in Hin.
    by destruct (H r Hin).
  - by apply get_repository_Raise in Hr as [-> _].
Qed.

(** X19.  add_and_remove looks up the repository and the base version before
    anything else: without a Repository of the given key it raises
    DoesNotExist, and so it does when the repository exists and a base version
    is named, by a key that is not falsy, that no RepositoryVersion has;
    whatever the content keys are. *)
Theorem add_and_remove_raises repo_pk add_content_units remove_content_units
    base_version_pk new_pk d :
  ((∀ r, r ∈ repository_table d → repository_pk r ≠ repo_pk) →
   add_and_remove repo_pk add_content_units remove_content_units
     base_version_pk new_pk d = Raise DoesNotExist)
  ∧ (∀ pk, base_version_pk = Some pk → pk ≠ "" →
           (∀ v, v ∈ version_table d → version_pk v ≠ pk) →
           add_and_remove repo_pk add_content_units remove_content_units
             base_version_pk new_pk d = Raise DoesNotExist).
Proof.
  unfold add_and_remove. split.
  - intros Hrepo. by rewrite (get_repository_absent _ _ Hrepo).
  - intros pk -> Hne Hv.
    destruct (get_repository repo_pk d) as [repo|e'] eqn:Hrepo; simpl.
    + rewrite decide_False by done. simpl.
      by rewrite (get_version_absent _ _ Hv).
    + by apply get_repository_Raise in Hrepo as [-> _].
Qed.

Lemma add_and_remove_raises_witness :
  add_and_remove "nowhere" ["x"] ["*"] None "v3" (db_of three_versions)
    = Raise DoesNotExist
  ∧ add_and_remove "repo" ["x"] [] (Some "v9") "v3" (db_of three_versions)
    = Raise DoesNotExist.
Proof.
  split.
  - apply (proj1 (add_and_remove_raises "nowhere" ["x"] ["*"] None "v3"
                    (db_of three_versions))).
    intros r Hr. simpl in Hr. apply list_elem_of_singleton in Hr as ->.
    discriminate.
  - apply (proj2 (add_and_remove_raises "repo" ["x"] [] (Some "v9") "v3"
                    (db_of three_versions)) "v9" eq_refl).
    + discriminate.
    + intros v Hv. simpl in Hv.
      repeat (apply elem_of_cons in Hv as [->|Hv]; [discriminate|]).
      by apply elem_of_nil in Hv.
Defined.

End TasksMore.

(** * Facts about the serializer *)

Module SerializersFacts.
Import Serializers.

Lemma dict_set_keys k v d k' :
  k' ∈ dict_keys (dict_set k v d) ↔ k' = k ∨ k' ∈ dict_keys d.
Proof.
  unfold dict_keys. induction d as [|[k0 v0] d IH]; simpl.
  - rewrite list_elem_of_singleton, elem_of_nil. tauto.
  - destruct (decide (k0 = k)) as [->|Hne]; simpl.
    + rewrite !elem_of_cons. tauto.
    + rewrite !elem_of_cons, IH. tauto.
Qed.

Lemma dict_set_NoDup k v d :
  NoDup (dict_keys d) → NoDup (dict_keys (dict_set k v d)).
Proof.
  unfold dict_keys. induction d as [|[k0 v0] d IH]; simpl; intros Hnd.
  - apply NoDup_singleton.
  - destruct (decide (k0 = k)) as [->|Hne]; simpl; [done|].
    apply NoDup_cons in Hnd as [Hnotin Hnd]. apply NoDup_cons. split; [|auto].
    intros Hin. apply (dict_set_keys k v d k0) in Hin as [->|Hin]; done.
Qed.

Section SerializerFacts.

Variable extract_pk : string → exc string.
Variable raise_for_unknown_content_units :
  list string → list (string * string) → exc unit.

Lemma collect_pks_keys value :
  ∀ units units',
    NoDup (dict_keys units) →
    collect_pks extract_pk value units = Ok units' →
    NoDup (dict_keys units') ∧
    (∀ url, url ∈ value → ∃ pk, extract_pk url = Ok pk) ∧
    ∀ pk, pk ∈ dict_keys units' ↔
          pk ∈ dict_keys units ∨ ∃ url, url ∈ value ∧ extract_pk url = Ok pk.
Proof.
  induction value as [|url value IH]; simpl; intros units units' Hnd.
  - intros [= <-]. split; [done|]. split.
    + intros url Hin. by apply elem_of_nil in Hin.
    + intros pk. split; [by left|]. intros [?|(url & Hin & _)]; [done|].
      by apply elem_of_nil in Hin.
  - destruct (extract_pk url) as [pk0|e] eqn:Hpk; simpl; [|discriminate].
    intros H. apply IH in H as (Hnd' & Hall & Hkeys);
      [|by apply dict_set_NoDup].
    split; [done|]. split.
    + intros url' [->|Hin]%elem_of_cons; eauto.
    + intros pk. rewrite Hkeys, dict_set_keys. split.
      * intros [[->|?]|(url' & Hin & Hu)]; [right|by left|right].
        -- exists url. split; [by left|done].
        -- exists url'. split; [by right|done].
      * intros [?|(url' & [->|Hin]%elem_of_cons & Hu)].
        -- left. by right.
        -- left. left. congruence.
        -- right. eauto.
Qed.

(** X20.  What validate_add_content_units returns: a list without duplicates
    that holds exactly the keys of the urls it was given, every one of which
    was accepted by extract_pk; and the unknown-units check has passed on the
    Content rows found for these keys. *)
Theorem validate_add_content_units_keys value d l touched :
  validate_add_content_units extract_pk raise_for_unknown_content_units value d
    = (Ok l, touched) →
  NoDup l ∧
  (∀ url, url ∈ value → ∃ pk, extract_pk url = Ok pk ∧ pk ∈ l) ∧
  (∀ pk, pk ∈ l → ∃ url, url ∈ value ∧ extract_pk url = Ok pk) ∧
  (∀ pk, pk ∈ touched ↔
         pk ∈ l ∧ pk ∈ map Tasks.content_pk (Tasks.content_table d)).
Proof.
  unfold validate_add_content_units.
  destruct (collect_pks extract_pk value []) as [units|e] eqn:Hc; [|discriminate].
  destruct (raise_for_unknown_content_units _ units) as [u|e]; simpl;
    [|discriminate].
  intros [= <- <-].
  apply collect_pks_keys in Hc as (Hnd & Hall & Hkeys); [|constructor].
  split; [done|]. split; [|split].
  - intros url Hin. destruct (Hall url Hin) as [pk Hpk]. exists pk.
    split; [done|]. apply Hkeys. right. eauto.
  - intros pk Hin. apply Hkeys in Hin as [Hin|?]; [|done].
    by apply elem_of_nil in Hin.
  - intros pk. unfold existing_content_units.
    rewrite list_elem_of_In, filter_In, <- list_elem_of_In, bool_decide_eq_true.
    tauto.
Qed.

(** X21.  validate_remove_content_units and "*": a value that holds "*" is
    accepted only when "*" is all it holds, and then ["*"] is returned; the
    helpers are not consulted.  A value without "*" never yields "*" unless
    extract_pk itself produces it. *)
Theorem validate_remove_content_units_star value d l :
  validate_remove_content_units extract_pk raise_for_unknown_content_units value d
    = Ok l →
  ("*" ∈ value → value = ["*"] ∧ l = ["*"])
  ∧ ("*" ∉ value →
     NoDup l ∧ ∀ pk, pk ∈ l ↔ ∃ url, url ∈ value ∧ extract_pk url = Ok pk).
Proof.
  unfold validate_remove_content_units.
  destruct (bool_decide ("*" ∈ value)) eqn:Hstar.
  - apply bool_decide_eq_true in Hstar.
    destruct (bool_decide (1 < length value)) eqn:Hlen; [discriminate|].
    apply bool_decide_eq_false in Hlen. intros [= <-]. split; [|done].
    intros _. split; [|done].
    destruct value as [|x [|y value]]; simpl in Hlen; [| |lia].
    + by apply elem_of_nil in Hstar.
    + by apply list_elem_of_singleton in Hstar as ->.
  - apply bool_decide_eq_false in Hstar.
    destruct (collect_pks extract_pk value []) as [units|e] eqn:Hc; simpl;
      [|discriminate].
    destruct (raise_for_unknown_content_units _ units) as [u|e]; simpl;
      [|discriminate].
    intros [= <-]. split; [done|]. intros _.
    apply collect_pks_keys in Hc as (Hnd & Hall & Hkeys); [|constructor].
    split; [done|]. intros pk. rewrite Hkeys. split; [|by right].
    intros [Hin|?]; [|done]. by apply elem_of_nil in Hin.
Qed.

End SerializerFacts.

Lemma validate_add_content_units_keys_witness :
  NoDup ["x"; "y"] ∧
  (∀ url, url ∈ ["/c/x"; "/c/y"; "/c/x"] →
          ∃ pk, toy_extract_pk url = Ok pk ∧ pk ∈ ["x"; "y"]) ∧
  (∀ pk, pk ∈ ["x"; "y"] →
         ∃ url, url ∈ ["/c/x"; "/c/y"; "/c/x"] ∧ toy_extract_pk url = Ok pk) ∧
  (∀ pk, pk ∈ ["x"; "y"] ↔
         pk ∈ ["x"; "y"] ∧
         pk ∈ map Tasks.content_pk
                (Tasks.content_table (Tasks.db_of Tasks.three_versions))).
Proof.
  apply (validate_add_content_units_keys toy_extract_pk toy_raise_for_unknown
           ["/c/x"; "/c/y"; "/c/x"] (Tasks.db_of Tasks.three_versions)
           ["x"; "y"] ["x"; "y"]).
  vm_compute. reflexivity.
Defined.

Lemma validate_remove_content_units_star_witness :
  ("*" ∈ ["*"] → ["*"] = ["*"] ∧ ["*"] = ["*"])
  ∧ ("*" ∉ ["*"] →
     NoDup ["*"] ∧
     ∀ pk, pk ∈ ["*"] ↔ ∃ url, url ∈ ["*"] ∧ toy_extract_pk url = Ok pk).
Proof.
  apply (validate_remove_content_units_star toy_extract_pk toy_raise_for_unknown
           ["*"] (Tasks.db_of Tasks.three_versions) ["*"]).
  vm_compute. reflexivity.
Defined.

End SerializersFacts.
